(** * Stone-Paper-Scissors: a shallow embedding of [Stone-Paper-Scissors.c]

    The program is one C file: [main] (the prompts, the validation of the
    best-of count, the match loop and the figlet banner), [getPlayerChoice],
    [randomNumber], [asciiArtPrinter] and [clearInputBuffer].

    The embedding follows the C text.  [int] values are integers of [Z] with
    the 32-bit wrap-around written out ([int] has 32 bits on the POSIX
    systems the program is written for); character arrays are lists of
    [ascii]; the effects of the program (reading standard input, writing,
    [rand], [exit], [fork]/[waitpid]) are threaded through a small state
    monad over a [world].  The pacing calls to [usleep] have no effect on
    any value and are left out. *)

From Stdlib Require Import ZArith List Ascii String Bool Lia.
Import ListNotations.
Local Open Scope Z_scope.

(** ** C arithmetic on [int] *)

Module CInt.

Definition INT_MAX : Z := 2147483647.
Definition INT_MIN : Z := -2147483648.

Definition in_range (z : Z) : Prop := INT_MIN <= z <= INT_MAX.

(** Reduction of a mathematical integer to the 32-bit two's-complement
    value an [int] holds. *)
Definition wrap (z : Z) : Z := (z + 2 ^ 31) mod 2 ^ 32 - 2 ^ 31.

Definition add (a b : Z) : Z := wrap (a + b).
Definition sub (a b : Z) : Z := wrap (a - b).

(** [/] and [%] truncate towards zero. *)
Definition div (a b : Z) : Z := wrap (Z.quot a b).
Definition rem (a b : Z) : Z := Z.rem a b.

End CInt.

(** ** Constants of the program *)

Definition ART_HEIGHT : Z := 20.
Definition COMBINED_ART_WIDTH : string := "180".
Definition MAX_PLAYER_NAME : nat := 20.
Definition MAX_CHOICE_ATTEMPTS : nat := 5.
Definition MAX_WIN_MESSAGE_BUFFER : nat := 120.
Definition MAX_CHOICE_INPUT_LENGTH : nat := 9.

(** ** Characters and character arrays *)

Definition LF : ascii := "010"%char.
Definition NUL : ascii := "000"%char.

Definition nl : string := String LF EmptyString.

(** The string held by a character array: its characters up to the first
    NUL.  An array is given by the characters written into it; the
    terminator that [fgets] appends lies just behind the last one. *)
Fixpoint cstring (buf : list ascii) : list ascii :=
  match buf with
  | [] => []
  | c :: rest => if (c =? NUL)%char then [] else c :: cstring rest
  end.

Definition strlen (buf : list ascii) : nat := List.length (cstring buf).

(** [buf[i] = c] *)
Definition store (buf : list ascii) (i : nat) (c : ascii) : list ascii :=
  firstn i buf ++ c :: skipn (S i) buf.

(** [strcmp(buf, lit) == 0] *)
Definition strcmp_eq (buf : list ascii) (lit : string) : bool :=
  if list_eq_dec ascii_dec (cstring buf) (list_ascii_of_string lit)
  then true else false.

(** [tolower] in the "C" locale (the program never calls [setlocale]). *)
Definition tolower (c : ascii) : ascii :=
  let k := nat_of_ascii c in
  if (Nat.leb 65 k && Nat.leb k 90)%bool then ascii_of_nat (k + 32) else c.

(** ** The world the program runs in *)

(** The four ASCII-art tables of [main], by name. *)
Inductive art : Type := stone | paper | scissors | vs.

(** How a child process ended, as [waitpid] reports it. *)
Inductive wstatus : Type :=
| Exited (code : Z)
| Signaled (sig : Z).

Definition WIFEXITED (s : wstatus) : Z :=
  match s with Exited _ => 1 | Signaled _ => 0 end.

Definition WEXITSTATUS (s : wstatus) : Z :=
  match s with Exited c => c | Signaled _ => 0 end.

(** Who the final message names. *)
Inductive winner : Type := PlayerWon | ComputerWon.

(** What the process does to the outside. *)
Inductive event : Type :=
| Out (s : string)                       (* printf / putchar *)
| Err (s : string)                       (* perror / fprintf(stderr, ...) *)
| ErrStatus (status : Z)
    (* "Child process failed to execute with status %d" on stderr *)
| ArtPrint (a1 a2 a3 : art) (height : Z) (* asciiArtPrinter *)
| Score (name : list ascii) (pw cw : Z)  (* "%s : %i | Computer : %i" *)
| Figlet (width : string) (name : list ascii) (pw cw : Z) (who : winner).
    (* figlet started on "-w", width and the win message: the score line
       "<name>  :  <pw>        |        Computer  :  <cw>" and, below it,
       "<name>   wins !" or "Computer   wins !" *)

(** What the program does not decide itself. *)
Record env : Type := {
  rand_seq : nat -> N;          (* the values of successive rand() calls *)
  scanf_i : list ascii -> Z * Z * list ascii;
    (* scanf("%i", &x) on the pending input: its return value, the int
       stored (meaningful when the return value is 1) and the input left *)
  garbage : list ascii;         (* content of an uninitialised char array *)
  fork_ret : Z;                 (* what fork() returns to this process *)
  exec_ok : bool;               (* whether execvp finds and starts figlet *)
  wait_status : wstatus         (* what waitpid stores *)
}.

Record world : Type := {
  w_env : env;
  w_in : list ascii;            (* standard input not yet read *)
  w_calls : nat;                (* number of rand() calls so far *)
  w_out : list event            (* everything done so far, oldest first *)
}.

(** ** The monad of the program *)

Inductive outcome (A : Type) : Type :=
| Ret (a : A)           (* the computation went through *)
| Exit (code : Z)       (* the process ended with this status *)
| Replaced              (* execvp replaced the process image *)
| Spin.                 (* the loop was cut off by the fuel *)

Arguments Ret {A} a.
Arguments Exit {A} code.
Arguments Replaced {A}.
Arguments Spin {A}.

Definition M (A : Type) : Type := world -> outcome A * world.

Definition ret {A} (a : A) : M A := fun w => (Ret a, w).

Definition bind {A B} (m : M A) (k : A -> M B) : M B :=
  fun w =>
    match m w with
    | (Ret a, w') => k a w'
    | (Exit c, w') => (Exit c, w')
    | (Replaced, w') => (Replaced, w')
    | (Spin, w') => (Spin, w')
    end.

Declare Scope prog_scope.
Delimit Scope prog_scope with prog.
Notation "x <- m ;; k" := (bind m (fun x => k))
  (at level 61, m at next level, right associativity) : prog_scope.
Notation "m ;; k" := (bind m (fun _ => k))
  (at level 61, right associativity) : prog_scope.
Local Open Scope prog_scope.

(** The world after the events [d]. *)
Definition add_out (d : list event) (w : world) : world :=
  {| w_env := w_env w; w_in := w_in w;
     w_calls := w_calls w; w_out := w_out w ++ d |}.

Definition emit (e : event) : M unit := fun w => (Ret tt, add_out [e] w).

Definition printf (s : string) : M unit := emit (Out s).
Definition putchar (c : ascii) : M unit := emit (Out (String c EmptyString)).
Definition perror (s : string) : M unit := emit (Err s).

(** [exit(c)], and [return c] from [main]. *)
Definition exit {A} (c : Z) : M A := fun w => (Exit c, w).

Definition set_in (inp : list ascii) (w : world) : world :=
  {| w_env := w_env w; w_in := inp; w_calls := w_calls w; w_out := w_out w |}.

(** The content of a character array declared without initialiser. *)
Definition uninit : M (list ascii) := fun w => (Ret (garbage (w_env w)), w).

(** [rand()] *)
Definition rand : M Z :=
  fun w => (Ret (Z.of_N (rand_seq (w_env w) (w_calls w))),
            {| w_env := w_env w; w_in := w_in w;
               w_calls := S (w_calls w); w_out := w_out w |}).

(** What [fgets] takes from the input when there is room for [room]
    characters: it stops behind a line feed, at the end of the input or
    when the room is used up. *)
Fixpoint fgets_take (room : nat) (inp : list ascii) : list ascii * list ascii :=
  match room, inp with
  | O, _ => ([], inp)
  | S _, [] => ([], [])
  | S room', c :: rest =>
      if (c =? LF)%char then ([c], rest)
      else let (got, rest') := fgets_take room' rest in (c :: got, rest')
  end.

(** [fgets(buf, size, stdin)]; the result is the new content of [buf].  At
    end of input nothing is read, fgets returns NULL and [buf] is left as
    it was (the program does not look at the return value). *)
Definition fgets (buf : list ascii) (size : nat) : M (list ascii) :=
  fun w =>
    match fgets_take (size - 1) (w_in w) with
    | ([], _) => (Ret buf, w)
    | (got, rest) => (Ret got, set_in rest w)
    end.

(** [while (((a = getchar()) != '\n') && (a != EOF));] *)
Fixpoint skip_line (inp : list ascii) : list ascii :=
  match inp with
  | [] => []
  | c :: rest => if (c =? LF)%char then rest else skip_line rest
  end.

Definition clearInputBuffer : M unit :=
  fun w => (Ret tt, set_in (skip_line (w_in w)) w).

(** [scanf("%i", &bestOf)]: the conversion itself is libc's. *)
Definition scanf_int : M (Z * Z) :=
  fun w =>
    let '(r, v, rest) := scanf_i (w_env w) (w_in w) in
    (Ret (r, v), set_in rest w).

Definition fork : M Z := fun w => (Ret (fork_ret (w_env w)), w).

(** [execvp(figlet[0], figlet)]: returns only when it fails. *)
Definition execvp (width : string) (name : list ascii) (pw cw : Z)
                  (who : winner) : M unit :=
  fun w =>
    if exec_ok (w_env w)
    then (Replaced, snd (emit (Figlet width name pw cw who) w))
    else (Ret tt, w).

Definition waitpid : M wstatus := fun w => (Ret (wait_status (w_env w)), w).

(** ** [asciiArtPrinter] and [randomNumber] *)

Definition asciiArtPrinter (art1 art2 art3 : art) (height : Z) : M unit :=
  emit (ArtPrint art1 art2 art3 height).

Definition randomNumber (min max : Z) : M Z :=
  r <- rand ;;
  ret (CInt.add (CInt.rem r (CInt.add (CInt.sub max min) 1)) min).

(** ** [getPlayerChoice] *)

Fixpoint getPlayerChoice_loop (attempts : nat) : M Z :=
  match attempts with
  | O =>
      printf ("Too many invalid inputs..." ++ nl) ;;
      exit 1
  | S attempts' =>
      tmp <- uninit ;;
      putchar LF ;;
      printf "Stone, Paper or Scissors: " ;;
      tempPlayerChoice <- fgets tmp MAX_CHOICE_INPUT_LENGTH ;;
      putchar LF ;;
      let len := strlen tempPlayerChoice in
      tempPlayerChoice <-
        (if (Nat.ltb 0 len && (nth (len - 1) tempPlayerChoice NUL =? LF)%char)%bool
         then ret (store tempPlayerChoice (len - 1) NUL)
         else clearInputBuffer ;; ret tempPlayerChoice) ;;
      let tempPlayerChoice :=
        map tolower (firstn len tempPlayerChoice) ++ skipn len tempPlayerChoice in
      if strcmp_eq tempPlayerChoice "stone" then ret 1
      else if strcmp_eq tempPlayerChoice "paper" then ret 2
      else if strcmp_eq tempPlayerChoice "scissors" then ret 3
      else
        printf ("Invalid Choice..." ++ nl) ;;
        getPlayerChoice_loop attempts'
  end.

Definition getPlayerChoice : M Z := getPlayerChoice_loop MAX_CHOICE_ATTEMPTS.

(** ** [main] *)

(** The variables of [main] that the match loop works on. *)
Record locals : Type := {
  n : Z;              (* wins required *)
  playerWins : Z;
  computerWins : Z
}.

(** [playerWins++] and [computerWins++] *)
Definition incr_player (st : locals) : locals :=
  {| n := n st; playerWins := CInt.add (playerWins st) 1;
     computerWins := computerWins st |}.

Definition incr_computer (st : locals) : locals :=
  {| n := n st; playerWins := playerWins st;
     computerWins := CInt.add (computerWins st) 1 |}.

(** The decision of a round (lines 261-298): the art is printed and the
    winner's counter is incremented. *)
Definition round_logic (playerChoice computerChoice : Z) (st : locals) : M locals :=
  if playerChoice =? 1 then
    if computerChoice =? 1 then
      asciiArtPrinter stone vs stone ART_HEIGHT ;; ret st
    else if computerChoice =? 2 then
      asciiArtPrinter stone vs paper ART_HEIGHT ;; ret (incr_computer st)
    else
      asciiArtPrinter stone vs scissors ART_HEIGHT ;; ret (incr_player st)
  else if playerChoice =? 2 then
    if computerChoice =? 1 then
      asciiArtPrinter paper vs stone ART_HEIGHT ;; ret (incr_player st)
    else if computerChoice =? 2 then
      asciiArtPrinter paper vs paper ART_HEIGHT ;; ret st
    else
      asciiArtPrinter paper vs scissors ART_HEIGHT ;; ret (incr_computer st)
  else
    if computerChoice =? 1 then
      asciiArtPrinter scissors vs stone ART_HEIGHT ;; ret (incr_computer st)
    else if computerChoice =? 2 then
      asciiArtPrinter scissors vs paper ART_HEIGHT ;; ret (incr_player st)
    else
      asciiArtPrinter scissors vs scissors ART_HEIGHT ;; ret st.

(** The banner (lines 312-371), entered when the match is over. *)
Definition announce (playerName : list ascii) (st : locals) : M unit :=
  putchar LF ;;
  printf ("." ++ nl) ;;
  printf (".." ++ nl) ;;
  printf ("..." ++ nl) ;;
  putchar LF ;;
  let who := if playerWins st =? n st then PlayerWon else ComputerWon in
  pid <- fork ;;
  if pid =? -1 then
    perror "Fork failed" ;;
    exit 1
  else if pid =? 0 then
    execvp COMBINED_ART_WIDTH (cstring playerName)
           (playerWins st) (computerWins st) who ;;
    perror "Figlet execution failed" ;;
    exit 1
  else
    status <- waitpid ;;
    if negb (WIFEXITED status =? 0) then
      if negb (WEXITSTATUS status =? 0) then
        emit (ErrStatus (WEXITSTATUS status)) ;;
        exit 1
      else ret tt
    else
      perror "Child process terminated abnormally" ;;
      exit 1.

(** What follows the decision of a round (lines 301-371): the running score
    while the match goes on, the banner when it is over. *)
Definition after_round (playerName : list ascii) (st : locals) : M unit :=
  if (negb (playerWins st =? n st) && negb (computerWins st =? n st))%bool then
    putchar LF ;;
    emit (Score (cstring playerName) (playerWins st) (computerWins st)) ;;
    putchar LF
  else
    announce playerName st.

(** One pass through the body of the [while] loop. *)
Definition round (playerName : list ascii) (st : locals) : M locals :=
  playerChoice <- getPlayerChoice ;;
  computerChoice <- randomNumber 1 3 ;;
  st' <- round_logic playerChoice computerChoice st ;;
  after_round playerName st' ;;
  ret st'.

(** [while ((playerWins < n) && (computerWins < n)) { ... }], cut off after
    [fuel] rounds. *)
Fixpoint game_loop (fuel : nat) (playerName : list ascii) (st : locals) : M locals :=
  if ((playerWins st <? n st) && (computerWins st <? n st))%bool then
    match fuel with
    | O => fun w => (Spin, w)
    | S fuel' =>
        st' <- round playerName st ;;
        game_loop fuel' playerName st'
    end
  else ret st.

(** The first prompt of [main] (lines 196-216): the player's name. *)
Definition read_player_name : M (list ascii) :=
  name0 <- uninit ;;
  putchar LF ;;
  printf "Player name: " ;;
  playerName <- fgets name0 MAX_PLAYER_NAME ;;
  let len := strlen playerName in
  if (Nat.ltb 0 len && (nth (len - 1) playerName NUL =? LF)%char)%bool
  then ret (store playerName (len - 1) NUL)
  else clearInputBuffer ;; ret playerName.

(** [(bestOf % 2 == 0) || (bestOf < 0)] *)
Definition rejected (bestOf : Z) : bool :=
  ((CInt.rem bestOf 2 =? 0) || (bestOf <? 0))%bool.

(** [int n = (bestOf + 1) / 2;] *)
Definition wins_needed (bestOf : Z) : Z := CInt.div (CInt.add bestOf 1) 2.

Definition start (n0 : Z) : locals :=
  {| n := n0; playerWins := 0; computerWins := 0 |}.

(** [srand(time(NULL))] only fixes the values that rand() will give: they
    are the [rand_seq] of the environment. *)
Definition main (fuel : nat) : M Z :=
  playerName <- read_player_name ;;
  putchar LF ;;
  printf "Best of: " ;;
  scanned <- scanf_int ;;
  let scanResult := fst scanned in
  let bestOf := snd scanned in
  clearInputBuffer ;;
  if negb (scanResult =? 1) then
    printf ("Invalid input..." ++ nl ++ nl) ;;
    exit 1
  else if rejected bestOf then
    putchar LF ;;
    printf ("Only positive odd integers are valid..." ++ nl ++ nl) ;;
    exit 1
  else
    game_loop fuel playerName (start (wins_needed bestOf)) ;;
    ret 0.

(** The exit status of the process, when it ends. *)
Definition exit_status {A} (r : outcome Z * A) : option Z :=
  match fst r with
  | Ret c => Some c
  | Exit c => Some c
  | Replaced => None
  | Spin => None
  end.

(** ** The decision table of a round *)

Inductive Move : Type := Stone | Paper | Scissors.

(** [1:Stone, 2:Paper, 3:Scissor] *)
Definition code (m : Move) : Z :=
  match m with Stone => 1 | Paper => 2 | Scissors => 3 end.

Inductive RoundOutcome : Type := PlayerWin | ComputerWin | Tie.

(** The branches of lines 261-298, each named by the counter it increments. *)
Definition resolve (playerChoice computerChoice : Z) : RoundOutcome :=
  if playerChoice =? 1 then
    if computerChoice =? 1 then Tie
    else if computerChoice =? 2 then ComputerWin
    else PlayerWin
  else if playerChoice =? 2 then
    if computerChoice =? 1 then PlayerWin
    else if computerChoice =? 2 then Tie
    else ComputerWin
  else
    if computerChoice =? 1 then ComputerWin
    else if computerChoice =? 2 then PlayerWin
    else Tie.

(** The art table a branch prints for a choice. *)
Definition art_of (choice : Z) : art :=
  if choice =? 1 then stone else if choice =? 2 then paper else scissors.

Definition score (o : RoundOutcome) (st : locals) : locals :=
  match o with
  | PlayerWin => incr_player st
  | ComputerWin => incr_computer st
  | Tie => st
  end.

(** The standard rule, in the words of the specification: Stone beats
    Scissors, Scissors beats Paper, Paper beats Stone. *)
Definition beats (a b : Move) : Prop :=
  match a, b with
  | Stone, Scissors | Scissors, Paper | Paper, Stone => True
  | _, _ => False
  end.


(** ** Reading the trace *)

(** Events that are neither a printed triptych nor a scoreboard line. *)
Definition plain (e : event) : Prop :=
  match e with
  | ArtPrint _ _ _ _ => False
  | Score _ _ _ => False
  | _ => True
  end.

Definition art_eqb (a b : art) : bool :=
  match a, b with
  | stone, stone | paper, paper | scissors, scissors | vs, vs => true
  | _, _ => false
  end.

(** Rounds played: one triptych is printed per round. *)
Fixpoint rounds (tr : list event) : Z :=
  match tr with
  | [] => 0
  | ArtPrint _ _ _ _ :: tr' => 1 + rounds tr'
  | _ :: tr' => rounds tr'
  end.

(** Rounds with a winner: the two hands of the triptych differ. *)
Fixpoint decisive (tr : list event) : Z :=
  match tr with
  | [] => 0
  | ArtPrint a1 _ a3 _ :: tr' =>
      (if art_eqb a1 a3 then 0 else 1) + decisive tr'
  | _ :: tr' => decisive tr'
  end.

(** The scoreboard lines of a trace. *)
Fixpoint scoreboards (tr : list event) : list event :=
  match tr with
  | [] => []
  | Score nm p c :: tr' => Score nm p c :: scoreboards tr'
  | _ :: tr' => scoreboards tr'
  end.

(** A computation only adds events, all of them satisfying [P]. *)
Definition emits {A} (P : event -> Prop) (m : M A) : Prop :=
  forall w, exists d, w_out (snd (m w)) = w_out w ++ d /\ Forall P d.

(** A computation leaves the environment as it is. *)
Definition keeps_env {A} (m : M A) : Prop :=
  forall w, w_env (snd (m w)) = w_env w.

(** [!(playerWins != n && computerWins != n)] fails: the match goes on. *)
Definition ongoing (st : locals) : bool :=
  (negb (playerWins st =? n st) && negb (computerWins st =? n st))%bool.

(** The test of the [while] loop. *)
Definition loop_test (st : locals) : bool :=
  ((playerWins st <? n st) && (computerWins st <? n st))%bool.

(** The outcome of [m ;; ret b], given the outcome of [m]. *)
Definition and_then {A B} (o : outcome A) (b : B) : outcome B :=
  match o with
  | Ret _ => Ret b
  | Exit c => Exit c
  | Replaced => Replaced
  | Spin => Spin
  end.

(** The shapes a pass through the loop body can take. *)
Inductive round_shape (playerName : list ascii) (st : locals) (w : world)
  : outcome locals * world -> Prop :=
| shape_abort (w1 : world) :
    (* the reader gave up: no round *)
    getPlayerChoice w = (Exit 1, w1) ->
    round_shape playerName st w (Exit 1, w1)
| shape_go (pc cc : Z) (w1 w2 w' : world) :
    (* a round after which the match goes on *)
    getPlayerChoice w = (Ret pc, w1) ->
    randomNumber 1 3 w1 = (Ret cc, w2) ->
    ongoing (score (resolve pc cc) st) = true ->
    w_out w' =
      w_out w2 ++
      [ArtPrint (art_of pc) vs (art_of cc) ART_HEIGHT;
       Out nl;
       Score (cstring playerName)
             (playerWins (score (resolve pc cc) st))
             (computerWins (score (resolve pc cc) st));
       Out nl] ->
    round_shape playerName st w (Ret (score (resolve pc cc) st), w')
| shape_end (pc cc : Z) (w1 w2 w3 w' : world) (o : outcome unit) :
    (* the round that ends the match *)
    getPlayerChoice w = (Ret pc, w1) ->
    randomNumber 1 3 w1 = (Ret cc, w2) ->
    ongoing (score (resolve pc cc) st) = false ->
    w_out w3 = w_out w2 ++ [ArtPrint (art_of pc) vs (art_of cc) ART_HEIGHT] ->
    w_env w3 = w_env w2 ->
    announce playerName (score (resolve pc cc) st) w3 = (o, w') ->
    round_shape playerName st w (and_then o (score (resolve pc cc) st), w').

(** A computation that always goes through. *)
Definition total {A} (m : M A) : Prop :=
  forall w, exists a w', m w = (Ret a, w').

(** A property of the outcome, whatever the world. *)
Definition post {A} (Q : outcome A -> Prop) (m : M A) : Prop :=
  forall w, Q (fst (m w)).

(** What [getPlayerChoice] can come to: one of the three choices, or the
    end of the process with status 1. *)
Definition choice_or_exit (o : outcome Z) : Prop :=
  o = Exit 1 \/ exists pc, o = Ret pc /\ (pc = 1 \/ pc = 2 \/ pc = 3).

(** ** Runs of the match loop *)

(** [reaches name st w st' w']: from the loop head in [st] and [w], some
    number of complete passes through the loop body lead to the loop head
    in [st'] and [w']. *)
Inductive reaches (playerName : list ascii)
  : locals -> world -> locals -> world -> Prop :=
| reaches_here (st : locals) (w : world) :
    reaches playerName st w st w
| reaches_round (st st1 st2 : locals) (w w1 w2 : world) :
    loop_test st = true ->
    round playerName st w = (Ret st1, w1) ->
    reaches playerName st1 w1 st2 w2 ->
    reaches playerName st w st2 w2.

(** The counters of [st'] are those of [st] after a round decided as [o]:
    the winner's counter is one higher, nothing else has changed. *)
Definition scored_as (o : RoundOutcome) (st st' : locals) : Prop :=
  match o with
  | PlayerWin =>
      playerWins st' = playerWins st + 1 /\
      computerWins st' = computerWins st
  | ComputerWin =>
      playerWins st' = playerWins st /\
      computerWins st' = computerWins st + 1
  | Tie =>
      playerWins st' = playerWins st /\
      computerWins st' = computerWins st
  end.

(** The three variables hold [int] values. *)
Definition int_locals (st : locals) : Prop :=
  CInt.in_range (n st) /\ CInt.in_range (playerWins st) /\
  CInt.in_range (computerWins st).

(** What holds at the loop head throughout a match. *)
Definition match_inv (st : locals) : Prop :=
  CInt.in_range (n st) /\
  0 <= playerWins st <= n st /\
  0 <= computerWins st <= n st /\
  ~ (playerWins st = n st /\ computerWins st = n st).

(** ** Worlds to run the program in *)

Definition text (s : string) : list ascii := list_ascii_of_string s.

(** The input made of the given lines of text. *)
Definition lines (l : list string) : list ascii :=
  flat_map (fun s => text s ++ [LF])%list l.

(** An environment: [scanf] stores [v] and leaves the line to
    [clearInputBuffer], rand() gives [draws] and then 0, fork() returns
    [pid], figlet starts and ends as [ws] says. *)
Definition sample_env (v : Z) (draws : list N) (pid : Z) (ws : wstatus) : env :=
  {| rand_seq := fun i => nth i draws 0%N;
     scanf_i := fun inp => (1, v, inp);
     garbage := [];
     fork_ret := pid;
     exec_ok := true;
     wait_status := ws |}.

(** The world at the start of the program, with the lines [inp] on
    standard input. *)
Definition sample_world (v : Z) (draws : list N) (inp : list string) : world :=
  {| w_env := sample_env v draws 4711 (Exited 0);
     w_in := lines inp; w_calls := 0; w_out := [] |}.

(** How many rounds with a winner the loop can still play from [st]. *)
Definition potential (st : locals) : Z :=
  if loop_test st
  then (n st - playerWins st) + (n st - computerWins st) - 1
  else 0.

(** ** The end of the match *)


(** The five prints that precede the banner. *)
Definition dots : list event :=
  [Out nl; Out ("." ++ nl); Out (".." ++ nl); Out ("..." ++ nl); Out nl].

(** fork() gave a child, the child ended by itself, with status 0. *)
Definition banner_ok (e : env) : Prop :=
  fork_ret e <> -1 /\
  WIFEXITED (wait_status e) <> 0 /\
  WEXITSTATUS (wait_status e) = 0.

(** ** Lines *)

(** The characters [l] are a line of text: no line feed and no NUL among
    them. *)
Definition text_line (l : list ascii) : Prop := ~ In LF l /\ ~ In NUL l.

(** How the input goes on behind the characters of a line: with the line
    feed that ends it and the [rest] of the input, or (for a last,
    non-empty line) with the end of the input. *)
Definition line_end (l tl rest : list ascii) : Prop :=
  tl = LF :: rest \/ (tl = [] /\ rest = [] /\ l <> []).

(** The three comparisons of [getPlayerChoice], on the string the array
    holds. *)
Definition choice_of (word : list ascii) : option Z :=
  if list_eq_dec ascii_dec word (text "stone") then Some 1
  else if list_eq_dec ascii_dec word (text "paper") then Some 2
  else if list_eq_dec ascii_dec word (text "scissors") then Some 3
  else None.

(** The world after an attempt of [getPlayerChoice] on a line: the prompt
    is printed and the input stands behind the line. *)
Definition after_attempt (rest : list ascii) (w : world) : world :=
  set_in rest
    (add_out [Out nl; Out "Stone, Paper or Scissors: "; Out nl] w).

(** The input made of the given lines, each ended by a line feed. *)
Definition feed (ls : list (list ascii)) : list ascii :=
  flat_map (fun l => l ++ [LF])%list ls.

(** What one rejected attempt prints. *)
Definition rejection : list event :=
  [Out nl; Out "Stone, Paper or Scissors: "; Out nl;
   Out ("Invalid Choice..." ++ nl)].

(** The line is a choice as the specification words it: in lower case it
    is one of the three words. *)
Definition spec_choice (l : list ascii) : option Z := choice_of (map tolower l).

(** The line is a choice as [getPlayerChoice] takes it: the comparison sees
    what fits into the array, the first 8 characters. *)
Definition read_choice (l : list ascii) : option Z :=
  choice_of (map tolower (firstn (MAX_CHOICE_INPUT_LENGTH - 1) l)).

(** * More of the program *)

(** ** The art tables and what [asciiArtPrinter] prints *)

(** The table [stone] of [main]. *)
Definition stone_rows : list string :=
  [ "                                                            "%string;
    "                                                            "%string;
    "                                                            "%string;
    "                        ...'..                              "%string;
    "                ...,;cloooolodddl:,..                       "%string;
    "          .::clllooooooooooollllllooddddl:,'.               "%string;
    "         :lllllllooooooooddoolllllllllldxxxxxxl'            "%string;
    "        ,;::cllllooooooooddddddlllllllllldxxxxxxd:          "%string;
    "       .,,,,,,,:clodoooooddddddddollllllllxxxxxxxxxc.       "%string;
    "        ,,,,,,,,,,,,;::clddddddddddddooolloxxxxxxxxx:       "%string;
    "        .,,,,,,,,,,,,,,,,,:clodddddddxxxxdoodxxxxxx:        "%string;
    "        ,;;;,,,,,,,,,,,,,,,,,,,;:ccdxxxxxxxxxddlol.         "%string;
    "       .;;;;;;;;;;;,,,,,,,,,,,;;;,,::::::;,,'''             "%string;
    "       .;;;;;;;;;;;;;;:;;;,,,,''''''''''''''                "%string;
    "           ';;;;;;;,,,'''''''''''''''''''.                  "%string;
    "                         .''''''''''''.                     "%string;
    "                                                            "%string;
    "                                                            "%string;
    "                                                            "%string;
    "                                                            "%string ].

(** The table [paper] of [main]. *)
Definition paper_rows : list string :=
  [ "                                                            "%string;
    "           ...........................                      "%string;
    "           'okkkkkkkkkkk         ;l,  '.                    "%string;
    "           'd000000000          .ll;.   ...                 "%string;
    "           'd0000000o            ll''      '.               "%string;
    "           'd000000k             ;l''......''''             "%string;
    "           'd000000.                 lllc    ..             "%string;
    "           'd000000                          '.             "%string;
    "           'd000000                                         "%string;
    "           'd000000                          .              "%string;
    "           'd000000'                                        "%string;
    "           'd000000O                                        "%string;
    "           'd0000000k                        '.             "%string;
    "           'd00000000k.                      '.             "%string;
    "           'd0000000000l                     '.             "%string;
    "           'd000000000000o,                  '.             "%string;
    "           'd00000000000000Oc.               '.             "%string;
    "           'd00000000000000000x;             '.             "%string;
    "           ;;:::::::::::::::::::;'..........''.             "%string;
    "                                                            "%string ].

(** The table [scissors] of [main]. *)
Definition scissors_rows : list string :=
  [ "                                                            "%string;
    "             .,c:.                        ,x:'.             "%string;
    "            .:odOkc.                    ;kxcxKc.            "%string;
    "            .codOkldl.               .;kxcxKKKl             "%string;
    "              :oxkkl:ol'           .:kxcxKKKO,              "%string;
    "                .oxkklcxo'       .:Ox:xKKKO,                "%string;
    "                  :oxkkoxko,.  .:OxcxKKKO,                  "%string;
    "                    'odkOOOOd,'OxcxKKKO'                    "%string;
    "                      'ldkOOOOd;;0KKk.                      "%string;
    "                        .ldx:::cd:l'                        "%string;
    "                       .'c;c;;:ckOd'.                       "%string;
    "                    .':ooc:',cddl:cooc'.                    "%string;
    "               ..,:loddddddo;  ,coddddddl:,'..              "%string;
    "           .,colc. cldddddc      ;codddl'  'lol;.           "%string;
    "          'ld;        'od:.      .,cc,        'oo'          "%string;
    "         .cd;          ,dl.      .:c,          ,dl.         "%string;
    "          ;dl.        .cdc        ,c:.        .cd;          "%string;
    "           .loc,....':oo,          .:c:,....,col.           "%string;
    "               .cllc.                   ;cc:                "%string;
    "                                                            "%string ].

(** The table [vs] of [main]. *)
Definition vs_rows : list string :=
  [ "                                                            "%string;
    "                     :dkKXWMMMMWXKkd:                       "%string;
    "                .lxOXWMMMMMMMMMMMMMMM,                      "%string;
    "             ;xKMMMMMMMMMMMMMMMMMMMM'                       "%string;
    "          .dXMMMMMMMMMMMMMMMMMMMMMM' d                      "%string;
    "         xWMMMMMMMMMMMMMMMMMMMMMMM. xl                      "%string;
    "       ,NMMMMMMMMMMMMMMMMMMMMMMMM. kN .'                    "%string;
    "      ;WMMMMMMMMMd    dMMMM0      kMl.O .                   "%string;
    "     .WMMMMMMMMMM0    'MMMO      OMM:doo:;                  "%string;
    "     kMMMMMMMMMMMW     WMO      OMMMMo,KMMMM;               "%string;
    "     WMMMMMMMMMMMM.    OO      kMMMMN                       "%string;
    "     KMMMMMMMMMMMMl    '       .dNMMMMNd'                   "%string;
    "     ,MMMMMMMMMMMMO                kMMMMM;                  "%string;
    "      kMMMMMMMMMMMWOoolO    0MMMM; oMMMMl                   "%string;
    "       xMMMMMMMMMMMXN'Xo   .d0XNNO0XKko.                    "%string;
    "        .MMMMMMMMMMM0NW                                     "%string;
    "          ,MMMMMMMMMMMo                                     "%string;
    "             XMMMMMMMN                                      "%string;
    "                ;MMMW                                       "%string;
    "                                                            "%string ].
Definition art_table (a : art) : list string :=
  match a with
  | stone => stone_rows
  | paper => paper_rows
  | scissors => scissors_rows
  | vs => vs_rows
  end.

(** The loop of [asciiArtPrinter]: [height] times, the three current rows
    are printed side by side with a line feed and the three pointers move
    on.  An array is given by its rows; going on behind its last row is a
    read outside the array, and has no result here. *)
Fixpoint asciiArtPrinter_lines (art1 art2 art3 : list string) (height : nat)
  {struct height} : option (list string) :=
  match height with
  | O => Some []
  | S height' =>
      match art1, art2, art3 with
      | row1 :: art1', row2 :: art2', row3 :: art3' =>
          match asciiArtPrinter_lines art1' art2' art3' height' with
          | Some printed => Some ((row1 ++ row2 ++ row3 ++ nl)%string :: printed)
          | None => None
          end
      | _, _, _ => None
      end
  end.

(** The lines behind a triptych event ([for (int i = 0; i < height; i++)]
    does nothing for a height below 1). *)
Definition printed_lines (e : event) : option (list string) :=
  match e with
  | ArtPrint a1 a2 a3 height =>
      asciiArtPrinter_lines (art_table a1) (art_table a2) (art_table a3)
                            (Z.to_nat height)
  | _ => None
  end.

(** ** More ways to read a run *)

(** A computation draws no random number. *)
Definition keeps_calls {A} (m : M A) : Prop :=
  forall w, w_calls (snd (m w)) = w_calls w.

(** If the process ends here, it ends with status 1. *)
Definition ends_with_1 {A} (o : outcome A) : Prop :=
  match o with
  | Exit c => c = 1
  | _ => True
  end.

(** What the prompt of an attempt prints before the answer is looked at. *)
Definition prompt : list event :=
  [Out nl; Out "Stone, Paper or Scissors: "; Out nl].

(** The input [rest] is what is left of the input [inp] after reading. *)
Definition left_of (inp rest : list ascii) : Prop :=
  exists read, inp = read ++ rest.

(** The message that [announce] hands to figlet for the variables [st]. *)
Definition win_message (playerName : list ascii) (st : locals) : event :=
  Figlet COMBINED_ART_WIDTH (cstring playerName)
         (playerWins st) (computerWins st)
         (if playerWins st =? n st then PlayerWon else ComputerWon).

(** The ways [announce] can come out, with what it adds behind the five
    prints that precede the banner. *)
Inductive announce_result (playerName : list ascii) (st : locals) (e : env)
  : outcome unit -> list event -> Prop :=
| banner_shown :
    e.(fork_ret) <> -1 -> e.(fork_ret) <> 0 ->
    e.(wait_status) = Exited 0 ->
    announce_result playerName st e (Ret tt) []
| banner_failed (report : event) :
    e.(fork_ret) <> 0 ->
    plain report ->
    announce_result playerName st e (Exit 1) [report]
| child_failed :
    e.(fork_ret) = 0 -> e.(exec_ok) = false ->
    announce_result playerName st e (Exit 1) [Err "Figlet execution failed"]
| child_replaced :
    e.(fork_ret) = 0 -> e.(exec_ok) = true ->
    announce_result playerName st e Replaced [win_message playerName st].

(** The ways a pass through the loop body can come out, with the events
    [d] it adds and the number of draws [k] it makes. *)
Inductive round_result (playerName : list ascii) (st : locals) (e : env)
  : outcome locals -> list event -> nat -> Prop :=
| reader_gave_up (d : list event) :
    Forall plain d ->
    round_result playerName st e (Exit 1) d 0
| round_goes_on (o : RoundOutcome) (d0 : list event) (a1 a3 : art) :
    Forall plain d0 ->
    art_eqb a1 a3 = match o with Tie => true | _ => false end ->
    ongoing (score o st) = true ->
    round_result playerName st e (Ret (score o st))
      (d0 ++ [ArtPrint a1 vs a3 ART_HEIGHT; Out nl;
              Score (cstring playerName) (playerWins (score o st))
                    (computerWins (score o st));
              Out nl])
      1
| round_ends_match (o : RoundOutcome) (d0 d1 : list event) (a1 a3 : art)
                   (res : outcome unit) :
    Forall plain d0 ->
    art_eqb a1 a3 = match o with Tie => true | _ => false end ->
    ongoing (score o st) = false ->
    announce_result playerName (score o st) e res d1 ->
    round_result playerName st e (and_then res (score o st))
      (d0 ++ [ArtPrint a1 vs a3 ART_HEIGHT] ++ dots ++ d1)
      1.

(** The event is a report on the standard error stream. *)
Definition on_stderr (e : event) : Prop :=
  match e with
  | Err _ | ErrStatus _ => True
  | _ => False
  end.
(** * Facts *)

(** ** Arithmetic on [int] *)

Lemma wrap_id (z : Z) : CInt.in_range z -> CInt.wrap z = z.
Proof.
  unfold CInt.in_range, CInt.wrap, CInt.INT_MIN, CInt.INT_MAX. intros H.
  rewrite Z.mod_small; lia.
Qed.

Lemma wrap_range (z : Z) : CInt.in_range (CInt.wrap z).
Proof.
  unfold CInt.in_range, CInt.wrap, CInt.INT_MIN, CInt.INT_MAX.
  pose proof (Z.mod_pos_bound (z + 2 ^ 31) (2 ^ 32) ltac:(lia)). lia.
Qed.

(** ** The decision of a round *)

(** [resolve] and [score] say what [round_logic] does. *)
Lemma round_logic_resolve (pc cc : Z) (st : locals) (w : world) :
  round_logic pc cc st w =
  (Ret (score (resolve pc cc) st),
   snd (emit (ArtPrint (art_of pc) vs (art_of cc) ART_HEIGHT) w)).
Proof.
  unfold round_logic, resolve, art_of.
  destruct (pc =? 1), (pc =? 2), (cc =? 1), (cc =? 2); reflexivity.
Qed.

(** C1. For every pair of moves the decision of the round is what the
    code does with the counters, and it is a tie exactly when the moves are
    equal; otherwise the player wins exactly when the player's move beats
    the computer's under the standard rule and the computer wins exactly
    when its move beats the player's (so exactly one of the two holds); and
    the player wins a pair exactly when the computer wins the swapped
    pair. *)
Theorem resolve_table (m1 m2 : Move) :
  (forall st w,
     fst (round_logic (code m1) (code m2) st w)
     = Ret (score (resolve (code m1) (code m2)) st)) /\
  (resolve (code m1) (code m2) = Tie <-> m1 = m2) /\
  (resolve (code m1) (code m2) = PlayerWin <-> beats m1 m2) /\
  (resolve (code m1) (code m2) = ComputerWin <-> beats m2 m1) /\
  (m1 <> m2 ->
     (resolve (code m1) (code m2) = PlayerWin /\
      resolve (code m1) (code m2) <> ComputerWin) \/
     (resolve (code m1) (code m2) = ComputerWin /\
      resolve (code m1) (code m2) <> PlayerWin)) /\
  (resolve (code m1) (code m2) = PlayerWin <->
   resolve (code m2) (code m1) = ComputerWin).
Proof.
  split; [intros st w; rewrite round_logic_resolve; reflexivity | ].
  destruct m1, m2; cbn;
    repeat split; intros; try tauto; try discriminate; try congruence;
    try (left; split; [reflexivity | discriminate]);
    try (right; split; [reflexivity | discriminate]).
Qed.

(** ** The monad *)

Lemma bind_ret_inv {A B} (m : M A) (k : A -> M B) (w w' : world) (b : B) :
  bind m k w = (Ret b, w') ->
  exists a w1, m w = (Ret a, w1) /\ k a w1 = (Ret b, w').
Proof.
  unfold bind. destruct (m w) as [[a | c | | ] w1]; intros H;
    try discriminate.
  exists a, w1. split; [reflexivity | exact H].
Qed.

Lemma emits_ret {A} (P : event -> Prop) (a : A) : emits P (ret a).
Proof. intros w. exists []. cbn. rewrite app_nil_r. auto. Qed.

Lemma emits_exit {A} (P : event -> Prop) (c : Z) : emits P (@exit A c).
Proof. intros w. exists []. cbn. rewrite app_nil_r. auto. Qed.

Lemma emits_bind {A B} (P : event -> Prop) (m : M A) (k : A -> M B) :
  emits P m -> (forall a, emits P (k a)) -> emits P (bind m k).
Proof.
  intros Hm Hk w. destruct (Hm w) as [d [Hd HP]].
  unfold bind. destruct (m w) as [[a | c | | ] w1]; cbn in *;
    try (exists d; split; assumption).
  destruct (Hk a w1) as [d' [Hd' HP']].
  exists (d ++ d'). split.
  - rewrite Hd', Hd, app_assoc. reflexivity.
  - apply Forall_app. split; assumption.
Qed.

Lemma emits_emit (P : event -> Prop) (e : event) : P e -> emits P (emit e).
Proof.
  intros H w. exists [e]. cbn. split; [reflexivity | ].
  constructor; [exact H | constructor].
Qed.

Lemma emits_silent {A} (P : event -> Prop) (m : M A) :
  (forall w, w_out (snd (m w)) = w_out w) -> emits P m.
Proof. intros H w. exists []. rewrite H, app_nil_r. auto. Qed.

Lemma fgets_silent (buf : list ascii) (size : nat) (w : world) :
  w_out (snd (fgets buf size w)) = w_out w.
Proof.
  unfold fgets. destruct (fgets_take (size - 1) (w_in w)) as [[ | c got] rest];
    reflexivity.
Qed.

Lemma scanf_int_silent (w : world) : w_out (snd (scanf_int w)) = w_out w.
Proof.
  unfold scanf_int. destruct (scanf_i (w_env w) (w_in w)) as [[r v] rest].
  reflexivity.
Qed.

Lemma emits_if {A} (P : event -> Prop) (b : bool) (m1 m2 : M A) :
  emits P m1 -> emits P m2 -> emits P (if b then m1 else m2).
Proof. destruct b; auto. Qed.

(** Straight-line code: split at every [bind], settle the primitives. *)
Ltac emits_step :=
  match goal with
  | |- emits _ (bind _ _) => apply emits_bind; [ | intros ? ]
  | |- emits _ (if _ then _ else _) => apply emits_if
  | |- emits _ (ret _) => apply emits_ret
  | |- emits _ (exit _) => apply emits_exit
  | |- emits _ (printf _) => apply emits_emit; exact I
  | |- emits _ (putchar _) => apply emits_emit; exact I
  | |- emits _ (perror _) => apply emits_emit; exact I
  | |- emits _ (emit _) => apply emits_emit; exact I
  | |- emits _ (fgets _ _) => apply emits_silent; apply fgets_silent
  | |- emits _ scanf_int => apply emits_silent; apply scanf_int_silent
  | |- emits _ _ => apply emits_silent; intros ?; reflexivity
  end.

Lemma keeps_env_bind {A B} (m : M A) (k : A -> M B) :
  keeps_env m -> (forall a, keeps_env (k a)) -> keeps_env (bind m k).
Proof.
  intros Hm Hk w. pose proof (Hm w) as E. unfold bind.
  destruct (m w) as [[a | c | | ] w1]; cbn [snd] in *; try exact E.
  rewrite Hk. exact E.
Qed.

Lemma keeps_env_if {A} (b : bool) (m1 m2 : M A) :
  keeps_env m1 -> keeps_env m2 -> keeps_env (if b then m1 else m2).
Proof. destruct b; auto. Qed.

Lemma keeps_env_fgets (buf : list ascii) (size : nat) :
  keeps_env (fgets buf size).
Proof.
  intros w. unfold fgets.
  destruct (fgets_take (size - 1) (w_in w)) as [[ | c got] rest]; reflexivity.
Qed.

Ltac keeps_env_step :=
  match goal with
  | |- keeps_env (bind _ _) => apply keeps_env_bind; [ | intros ? ]
  | |- keeps_env (if _ then _ else _) => apply keeps_env_if
  | |- keeps_env (fgets _ _) => apply keeps_env_fgets
  | |- keeps_env _ => intros ?; reflexivity
  end.

Lemma getPlayerChoice_keeps_env : keeps_env getPlayerChoice.
Proof.
  unfold getPlayerChoice.
  induction MAX_CHOICE_ATTEMPTS as [ | k IH]; cbn [getPlayerChoice_loop].
  - repeat keeps_env_step.
  - repeat first [ exact IH | keeps_env_step ].
Qed.

Lemma getPlayerChoice_loop_emits (k : nat) : emits plain (getPlayerChoice_loop k).
Proof.
  induction k as [ | k IH]; cbn [getPlayerChoice_loop].
  - repeat emits_step.
  - repeat first [ exact IH | emits_step ].
Qed.

Lemma getPlayerChoice_emits : emits plain getPlayerChoice.
Proof. apply getPlayerChoice_loop_emits. Qed.

Lemma execvp_emits width name pw cw who :
  emits plain (execvp width name pw cw who).
Proof.
  intros w. unfold execvp. destruct (exec_ok (w_env w)).
  - exists [Figlet width name pw cw who]. cbn.
    split; [reflexivity | repeat constructor].
  - exists []. cbn. rewrite app_nil_r. split; [reflexivity | constructor].
Qed.

Lemma announce_emits (name : list ascii) (st : locals) :
  emits plain (announce name st).
Proof.
  unfold announce.
  repeat first [ apply execvp_emits | emits_step ].
Qed.

Lemma total_ret {A} (a : A) : total (ret a).
Proof. intros w. exists a, w. reflexivity. Qed.

Lemma total_emit (e : event) : total (emit e).
Proof. intros w. eexists _, _. reflexivity. Qed.

Lemma total_fgets (buf : list ascii) (size : nat) : total (fgets buf size).
Proof.
  intros w. unfold fgets.
  destruct (fgets_take (size - 1) (w_in w)) as [[ | c got] rest];
    eexists _, _; reflexivity.
Qed.

Lemma total_bind {A B} (m : M A) (k : A -> M B) :
  total m -> (forall a, total (k a)) -> total (bind m k).
Proof.
  intros Hm Hk w. destruct (Hm w) as [a [w1 E]].
  unfold bind. rewrite E. apply Hk.
Qed.

Lemma total_if {A} (b : bool) (m1 m2 : M A) :
  total m1 -> total m2 -> total (if b then m1 else m2).
Proof. destruct b; auto. Qed.

Lemma post_bind {A B} (Q : outcome B -> Prop) (m : M A) (k : A -> M B) :
  total m -> (forall a, post Q (k a)) -> post Q (bind m k).
Proof.
  intros Hm Hk w. destruct (Hm w) as [a [w1 E]].
  unfold bind. rewrite E. apply Hk.
Qed.

Ltac total_step :=
  match goal with
  | |- total (bind _ _) => apply total_bind; [ | intros ? ]
  | |- total (if _ then _ else _) => apply total_if
  | |- total (ret _) => apply total_ret
  | |- total (fgets _ _) => apply total_fgets
  | |- total _ => intros ?; eexists _, _; reflexivity
  end.

Lemma getPlayerChoice_loop_post (k : nat) :
  post choice_or_exit (getPlayerChoice_loop k).
Proof.
  induction k as [ | k IH]; cbn [getPlayerChoice_loop].
  - intros w. left. reflexivity.
  - repeat (apply post_bind; [ solve [repeat total_step] | intros ? ]).
    repeat match goal with
           | |- post _ (if ?b then _ else _) => destruct b
           end.
    + intros w. right. exists 1. cbn. auto.
    + intros w. right. exists 2. cbn. auto.
    + intros w. right. exists 3. cbn. auto.
    + apply post_bind; [ solve [repeat total_step] | intros ? ]. exact IH.
Qed.

(** [getPlayerChoice] returns 1, 2 or 3, or ends the process with status
    1. *)
Lemma getPlayerChoice_cases (w : world) :
  (exists w1, getPlayerChoice w = (Exit 1, w1)) \/
  (exists pc w1, getPlayerChoice w = (Ret pc, w1) /\ (pc = 1 \/ pc = 2 \/ pc = 3)).
Proof.
  pose proof (getPlayerChoice_loop_post MAX_CHOICE_ATTEMPTS w) as H.
  fold getPlayerChoice in H.
  destruct (getPlayerChoice w) as [o w1]. cbn in H.
  destruct H as [-> | [pc [-> Hpc]]].
  - left. exists w1. reflexivity.
  - right. exists pc, w1. split; [reflexivity | exact Hpc].
Qed.

(** [randomNumber(1, 3)] draws once, prints nothing and yields 1, 2 or 3. *)
Lemma randomNumber_1_3 (w : world) :
  exists cc w2,
    randomNumber 1 3 w = (Ret cc, w2) /\
    (cc = 1 \/ cc = 2 \/ cc = 3) /\
    w_out w2 = w_out w /\ w_env w2 = w_env w /\ w_in w2 = w_in w.
Proof.
  unfold randomNumber, bind, rand, ret. eexists _, _.
  split; [reflexivity | ]. split; [ | cbn; auto ].
  set (r := Z.of_N _). assert (0 <= r) by (subst r; lia).
  unfold CInt.rem, CInt.add, CInt.sub.
  replace (CInt.wrap (CInt.wrap (3 - 1) + 1)) with 3 by reflexivity.
  pose proof (Z.rem_bound_pos r 3 ltac:(lia) ltac:(lia)) as Hb.
  rewrite wrap_id by (unfold CInt.in_range, CInt.INT_MIN, CInt.INT_MAX; lia).
  lia.
Qed.

Lemma round_shape_holds (name : list ascii) (st : locals) (w : world) :
  round_shape name st w (round name st w).
Proof.
  unfold round, bind at 1.
  destruct (getPlayerChoice_cases w) as [[w1 E] | [pc [w1 [E _]]]]; rewrite E.
  - apply shape_abort. exact E.
  - destruct (randomNumber_1_3 w1) as [cc [w2 [Ecc [_ [Hout [Henv _]]]]]].
    unfold bind at 1. rewrite Ecc.
    unfold bind at 1. rewrite round_logic_resolve. cbn [snd emit].
    set (st' := score (resolve pc cc) st).
    unfold after_round.
    change (negb (playerWins st' =? n st') && negb (computerWins st' =? n st'))%bool
      with (ongoing st').
    destruct (ongoing st') eqn:Hgo.
    + unfold bind, putchar, emit, ret.
      eapply shape_go; try eassumption.
      cbn. repeat rewrite <- app_assoc. reflexivity.
    + unfold bind.
      match goal with
      | |- context [announce name st' ?w3] =>
          destruct (announce name st' w3) as [o w'] eqn:Ea;
          replace (match o with
                   | Ret _ => ret st' w'
                   | Exit c => (Exit c, w')
                   | Replaced => (Replaced, w')
                   | Spin => (Spin, w')
                   end) with (and_then o st', w') by (destruct o; reflexivity);
          eapply (shape_end name st w pc cc w1 w2 w3 w' o);
            try eassumption; try reflexivity
      end.
Qed.

(** ** What a round does to the counters *)

Lemma incr_in_loop (x bound : Z) :
  CInt.in_range x -> CInt.in_range bound -> x < bound -> CInt.add x 1 = x + 1.
Proof.
  unfold CInt.add. intros Hx Hb Hlt. apply wrap_id.
  unfold CInt.in_range, CInt.INT_MIN, CInt.INT_MAX in *. lia.
Qed.

Lemma loop_test_true (st : locals) :
  loop_test st = true <-> playerWins st < n st /\ computerWins st < n st.
Proof.
  unfold loop_test. rewrite andb_true_iff, !Z.ltb_lt. tauto.
Qed.

Lemma loop_test_false (st : locals) :
  loop_test st = false <-> n st <= playerWins st \/ n st <= computerWins st.
Proof.
  unfold loop_test. rewrite andb_false_iff, !Z.ltb_ge. tauto.
Qed.

Lemma ongoing_true (st : locals) :
  ongoing st = true <-> playerWins st <> n st /\ computerWins st <> n st.
Proof.
  unfold ongoing. rewrite andb_true_iff, !negb_true_iff, !Z.eqb_neq. tauto.
Qed.

Lemma score_n (o : RoundOutcome) (st : locals) : n (score o st) = n st.
Proof. destruct o; reflexivity. Qed.

Lemma score_counters (o : RoundOutcome) (st : locals) :
  int_locals st -> loop_test st = true ->
  match o with
  | PlayerWin =>
      playerWins (score o st) = playerWins st + 1 /\
      computerWins (score o st) = computerWins st
  | ComputerWin =>
      playerWins (score o st) = playerWins st /\
      computerWins (score o st) = computerWins st + 1
  | Tie =>
      playerWins (score o st) = playerWins st /\
      computerWins (score o st) = computerWins st
  end.
Proof.
  intros [Hn [Hp Hc]] Ht. apply loop_test_true in Ht. destruct Ht as [Lp Lc].
  destruct o; cbn; split; try reflexivity.
  - apply (incr_in_loop _ (n st)); assumption.
  - apply (incr_in_loop _ (n st)); assumption.
Qed.

(** A pass through the loop body that comes back to the loop head has read
    a choice, drawn a number and scored them. *)
Lemma round_ret_inv (name : list ascii) (st st' : locals) (w w' : world) :
  round name st w = (Ret st', w') ->
  exists pc cc w1 w2,
    getPlayerChoice w = (Ret pc, w1) /\
    randomNumber 1 3 w1 = (Ret cc, w2) /\
    st' = score (resolve pc cc) st.
Proof.
  intros H. pose proof (round_shape_holds name st w) as S. rewrite H in S.
  inversion S as [ w1 E | pc cc w1 w2 w3 E1 E2 Hgo Hout
                 | pc cc w1 w2 w3 w4 o E1 E2 Hgo Hout Henv Ea Ho ].
  - exists pc, cc, w1, w2. auto.
  - exists pc, cc, w1, w2. destruct o; try discriminate.
    cbn in Ho. injection Ho as <-. auto.
Qed.

(** C9. In a round played with the loop test true, the decision of the
    round always goes through and changes the counters by the outcome
    alone: the player's counter goes up by exactly 1 and the computer's
    stays when the player wins, the computer's goes up by exactly 1 and
    the player's stays when the computer wins, and neither changes on a
    tie; [n] stays as it is.  A pass through the loop body changes the
    variables in no other way. *)
Theorem round_increments_one_counter (name : list ascii) (st : locals) :
  int_locals st ->
  loop_test st = true ->
  (forall pc cc w,
     exists st' w',
       round_logic pc cc st w = (Ret st', w') /\
       n st' = n st /\
       scored_as (resolve pc cc) st st') /\
  (forall w st' w',
     round name st w = (Ret st', w') ->
     n st' = n st /\
     exists pc cc w1 w2,
       getPlayerChoice w = (Ret pc, w1) /\
       randomNumber 1 3 w1 = (Ret cc, w2) /\
       scored_as (resolve pc cc) st st').
Proof.
  intros Hint Ht.
  assert (Hs : forall o, scored_as o st (score o st))
    by (intros o; exact (score_counters o st Hint Ht)).
  split.
  - intros pc cc w. rewrite round_logic_resolve.
    eexists _, _. split; [reflexivity | ].
    split; [apply score_n | apply Hs].
  - intros w st' w' H.
    destruct (round_ret_inv _ _ _ _ _ H) as [pc [cc [w1 [w2 [E1 [E2 ->]]]]]].
    split; [apply score_n | ].
    exists pc, cc, w1, w2. repeat split; try assumption. apply Hs.
Qed.

Lemma round_increments_one_counter_witness :
  (forall pc cc w,
     exists st' w',
       round_logic pc cc (start 2) w = (Ret st', w') /\
       n st' = n (start 2) /\
       scored_as (resolve pc cc) (start 2) st') /\
  (forall w st' w',
     round (text "Bob") (start 2) w = (Ret st', w') ->
     n st' = n (start 2) /\
     exists pc cc w1 w2,
       getPlayerChoice w = (Ret pc, w1) /\
       randomNumber 1 3 w1 = (Ret cc, w2) /\
       scored_as (resolve pc cc) (start 2) st').
Proof.
  apply (round_increments_one_counter (text "Bob") (start 2)).
  - unfold int_locals, CInt.in_range, CInt.INT_MIN, CInt.INT_MAX. cbn. lia.
  - reflexivity.
Defined.

(** ** The match loop *)

Lemma start_inv (n0 : Z) : 1 <= n0 -> CInt.in_range n0 -> match_inv (start n0).
Proof.
  unfold match_inv, start. cbn. intros H1 H2.
  split; [assumption | lia].
Qed.

Lemma match_inv_int (st : locals) : match_inv st -> int_locals st.
Proof.
  unfold match_inv, int_locals, CInt.in_range, CInt.INT_MIN, CInt.INT_MAX.
  intros [Hn [Hp [Hc _]]]. lia.
Qed.

Lemma score_inv (o : RoundOutcome) (st : locals) :
  match_inv st -> loop_test st = true -> match_inv (score o st).
Proof.
  intros Hi Ht.
  pose proof (score_counters o st (match_inv_int st Hi) Ht) as Hs.
  pose proof (score_n o st) as Hn.
  apply loop_test_true in Ht.
  unfold match_inv in *. rewrite Hn.
  destruct Hi as [Hr [Hp [Hc Hb]]]. destruct Ht as [Lp Lc].
  destruct o; destruct Hs as [-> ->]; (split; [assumption | lia]).
Qed.

Section MatchLoop.

(** The player's name, fixed for the match. *)
Variable name : list ascii.

Lemma round_inv (st st' : locals) (w w' : world) :
  match_inv st -> loop_test st = true ->
  round name st w = (Ret st', w') ->
  match_inv st' /\ n st' = n st.
Proof.
  intros Hi Ht H.
  destruct (round_ret_inv _ _ _ _ _ H) as [pc [cc [w1 [w2 [_ [_ ->]]]]]].
  split; [apply score_inv; assumption | apply score_n].
Qed.

Lemma reaches_inv (st st' : locals) (w w' : world) :
  reaches name st w st' w' ->
  match_inv st -> match_inv st' /\ n st' = n st.
Proof.
  induction 1 as [st w | st st1 st2 w w1 w2 Ht Hr _ IH]; intros Hi.
  - split; [assumption | reflexivity].
  - destruct (round_inv _ _ _ _ Hi Ht Hr) as [Hi1 Hn1].
    destruct (IH Hi1) as [Hi2 Hn2]. split; [assumption | congruence].
Qed.

(** When the loop comes to an end, it has made complete passes through its
    body and its test fails. *)
Lemma game_loop_reaches (fuel : nat) :
  forall (st st' : locals) (w w' : world),
    game_loop fuel name st w = (Ret st', w') ->
    reaches name st w st' w' /\ loop_test st' = false.
Proof.
  induction fuel as [ | fuel IH]; intros st st' w w' H; cbn [game_loop] in H;
    change ((playerWins st <? n st) && (computerWins st <? n st))%bool
      with (loop_test st) in H;
    destruct (loop_test st) eqn:Ht.
  - discriminate.
  - injection H as <- <-. split; [apply reaches_here | assumption].
  - apply bind_ret_inv in H. destruct H as [st1 [w1 [Hr Hl]]].
    destruct (IH _ _ _ _ Hl) as [Hre Hf].
    split; [ | assumption ].
    eapply reaches_round; eassumption.
  - injection H as <- <-. split; [apply reaches_here | assumption].
Qed.

(** Conversely, with enough fuel the loop follows any such run to its
    end. *)
Lemma reaches_game_loop (st st' : locals) (w w' : world) :
  reaches name st w st' w' ->
  loop_test st' = false ->
  exists fuel, forall more,
    game_loop (fuel + more) name st w = (Ret st', w').
Proof.
  induction 1 as [st w | st st1 st2 w w1 w2 Ht Hr _ IH]; intros Hf.
  - exists O. intros more. destruct more; cbn [game_loop Nat.add];
      change ((playerWins st <? n st) && (computerWins st <? n st))%bool
        with (loop_test st); rewrite Hf; reflexivity.
  - destruct (IH Hf) as [fuel Hfuel]. exists (S fuel). intros more.
    cbn [game_loop Nat.add].
    change ((playerWins st <? n st) && (computerWins st <? n st))%bool
      with (loop_test st).
    rewrite Ht. unfold bind. rewrite Hr. apply Hfuel.
Qed.

End MatchLoop.

(** ** Counting rounds in the trace *)

Lemma rounds_app (l l' : list event) : rounds (l ++ l') = rounds l + rounds l'.
Proof.
  induction l as [ | e l IH]; [reflexivity | ].
  destruct e; cbn [rounds app]; rewrite IH; lia.
Qed.

Lemma decisive_app (l l' : list event) :
  decisive (l ++ l') = decisive l + decisive l'.
Proof.
  induction l as [ | e l IH]; [reflexivity | ].
  destruct e; cbn [decisive app]; rewrite IH; lia.
Qed.

Lemma scoreboards_app (l l' : list event) :
  scoreboards (l ++ l') = (scoreboards l ++ scoreboards l')%list.
Proof.
  induction l as [ | e l IH]; [reflexivity | ].
  destruct e; cbn [scoreboards app]; rewrite IH; reflexivity.
Qed.

Lemma plain_counts (d : list event) :
  Forall plain d -> rounds d = 0 /\ decisive d = 0 /\ scoreboards d = [].
Proof.
  induction 1 as [ | e d He _ [IH1 [IH2 IH3]]]; [repeat split | ].
  destruct e; cbn in He; try contradiction; cbn; auto.
Qed.

Lemma decisive_art_of (pc cc : Z) :
  (if art_eqb (art_of pc) (art_of cc) then 0 else 1) =
  match resolve pc cc with Tie => 0 | _ => 1 end.
Proof.
  unfold art_of, resolve.
  destruct (pc =? 1), (pc =? 2), (cc =? 1), (cc =? 2); reflexivity.
Qed.

(** What a pass through the loop body adds to the trace. *)
Lemma round_trace (name : list ascii) (st : locals) (w : world) :
  exists d,
    w_out (snd (round name st w)) = w_out w ++ d /\
    0 <= decisive d <= 1 /\
    forall st', fst (round name st w) = Ret st' ->
      exists o, st' = score o st /\
                decisive d = match o with Tie => 0 | _ => 1 end.
Proof.
  destruct (round_shape_holds name st w)
    as [ w1 E | pc cc w1 w2 w' E1 E2 Hgo Hout
       | pc cc w1 w2 w3 w' o E1 E2 Hgo Hout Henv Ea ].
  - destruct (getPlayerChoice_emits w) as [d [Hd Hp]]. rewrite E in Hd.
    exists d. cbn [fst snd]. split; [exact Hd | ].
    destruct (plain_counts d Hp) as [_ [-> _]].
    split; [lia | discriminate].
  - destruct (getPlayerChoice_emits w) as [d [Hd Hp]]. rewrite E1 in Hd.
    destruct (randomNumber_1_3 w1) as [cc' [w2' [E2' [_ [Ho2 _]]]]].
    rewrite E2 in E2'. injection E2' as <- <-. cbn [snd] in Hd.
    eexists. cbn [fst snd]. split.
    { rewrite Hout, Ho2, Hd, <- app_assoc. reflexivity. }
    destruct (plain_counts d Hp) as [_ [Hd0 _]].
    rewrite decisive_app, Hd0. cbn [decisive].
    rewrite decisive_art_of.
    split; [destruct (resolve pc cc); lia | ].
    intros st' H. injection H as <-. exists (resolve pc cc).
    split; [reflexivity | destruct (resolve pc cc); lia].
  - destruct (getPlayerChoice_emits w) as [d [Hd Hp]]. rewrite E1 in Hd.
    destruct (randomNumber_1_3 w1) as [cc' [w2' [E2' [_ [Ho2 _]]]]].
    rewrite E2 in E2'. injection E2' as <- <-. cbn [snd] in Hd.
    destruct (announce_emits name (score (resolve pc cc) st) w3) as [d' [Hd' Hp']].
    rewrite Ea in Hd'. cbn [snd] in Hd'.
    eexists. cbn [fst snd]. split.
    { rewrite Hd', Hout, Ho2, Hd, <- !app_assoc. reflexivity. }
    destruct (plain_counts d Hp) as [_ [Hd0 _]].
    destruct (plain_counts d' Hp') as [_ [Hd0' _]].
    rewrite !decisive_app, Hd0, Hd0'. cbn [decisive].
    rewrite decisive_art_of.
    split; [destruct (resolve pc cc); lia | ].
    intros st' H. destruct o; try discriminate. cbn in H. injection H as <-.
    exists (resolve pc cc).
    split; [reflexivity | destruct (resolve pc cc); lia].
Qed.

Lemma potential_nonneg (st : locals) : 0 <= potential st.
Proof.
  unfold potential. destruct (loop_test st) eqn:Ht; [ | lia].
  apply loop_test_true in Ht. lia.
Qed.

Lemma potential_score (o : RoundOutcome) (st : locals) :
  int_locals st -> loop_test st = true ->
  int_locals (score o st) /\
  match o with Tie => 0 | _ => 1 end + potential (score o st) <= potential st.
Proof.
  intros Hint Ht.
  pose proof (score_counters o st Hint Ht) as Hs.
  pose proof (score_n o st) as Hn.
  pose proof (potential_nonneg (score o st)) as Hnn.
  assert (Hp : potential st = (n st - playerWins st) + (n st - computerWins st) - 1)
    by (unfold potential; rewrite Ht; reflexivity).
  pose proof Ht as Ht'. apply loop_test_true in Ht'. destruct Ht' as [Lp Lc].
  destruct Hint as [Rn [Rp Rc]].
  unfold int_locals. rewrite Hn.
  unfold potential at 1.
  destruct (loop_test (score o st)) eqn:Ht1.
  - apply loop_test_true in Ht1. rewrite Hn in *.
    destruct o; destruct Hs as [Hs1 Hs2]; rewrite Hs1, Hs2 in *;
      unfold CInt.in_range, CInt.INT_MIN, CInt.INT_MAX in *; lia.
  - destruct o; destruct Hs as [Hs1 Hs2]; rewrite Hs1, Hs2 in *;
      unfold CInt.in_range, CInt.INT_MIN, CInt.INT_MAX in *; lia.
Qed.

(** The rounds with a winner that the loop adds to the trace are bounded by
    the potential of the state it starts in. *)
Lemma game_loop_decisive (fuel : nat) (name : list ascii) :
  forall (st : locals) (w : world),
    int_locals st ->
    exists d,
      w_out (snd (game_loop fuel name st w)) = w_out w ++ d /\
      0 <= decisive d <= potential st.
Proof.
  induction fuel as [ | fuel IH]; intros st w Hint; cbn [game_loop];
    change ((playerWins st <? n st) && (computerWins st <? n st))%bool
      with (loop_test st);
    pose proof (potential_nonneg st) as Hnn;
    destruct (loop_test st) eqn:Ht;
    try (exists []; cbn; rewrite app_nil_r; split; [reflexivity | lia]).
  destruct (round_trace name st w) as [d1 [Hd1 [Hb1 Hret]]].
  unfold bind.
  destruct (round name st w) as [[st1 | c | | ] w1]; cbn [fst snd] in *;
    try (exists d1; split; [exact Hd1 | ];
         pose proof (potential_score Tie st Hint Ht) as [_ Hp];
         unfold potential in Hp |- *; rewrite Ht in *;
         apply loop_test_true in Ht; lia).
  destruct (Hret st1 eq_refl) as [o [-> Ho]].
  destruct (potential_score o st Hint Ht) as [Hint1 Hp].
  destruct (IH (score o st) w1 Hint1) as [d2 [Hd2 Hb2]].
  exists (d1 ++ d2). split.
  - rewrite Hd2, Hd1, app_assoc. reflexivity.
  - rewrite decisive_app. destruct o; lia.
Qed.

(** ** The best-of count *)

Lemma rejected_false (bestOf : Z) :
  rejected bestOf = false <-> Z.rem bestOf 2 <> 0 /\ 0 <= bestOf.
Proof.
  unfold rejected, CInt.rem.
  rewrite orb_false_iff, Z.eqb_neq, Z.ltb_ge. tauto.
Qed.

(** An accepted count is positive and odd. *)
Lemma accepted_odd (bestOf : Z) :
  rejected bestOf = false <-> 0 < bestOf /\ Z.odd bestOf = true.
Proof.
  rewrite rejected_false. rewrite Zodd_mod.
  split.
  - intros [Hr Hp].
    rewrite Z.rem_mod_nonneg in Hr by lia.
    pose proof (Z.mod_pos_bound bestOf 2 ltac:(lia)) as Hb.
    assert (bestOf mod 2 = 1) as E by lia.
    split; [ | rewrite E; reflexivity ].
    destruct (Z.eq_dec bestOf 0) as [-> | ]; [discriminate | lia].
  - intros [Hp Ho]. apply Z.eqb_eq in Ho.
    rewrite Z.rem_mod_nonneg by lia. lia.
Qed.

(** Away from [INT_MAX], [n] is (bestOf+1)/2, and twice [n] is
    [bestOf + 1]. *)
Lemma wins_needed_no_overflow (bestOf : Z) :
  rejected bestOf = false ->
  bestOf < CInt.INT_MAX ->
  wins_needed bestOf = (bestOf + 1) / 2 /\ 2 * wins_needed bestOf = bestOf + 1.
Proof.
  intros Hacc Hlt. apply accepted_odd in Hacc. destruct Hacc as [Hp Ho].
  rewrite Zodd_mod in Ho. apply Z.eqb_eq in Ho.
  unfold wins_needed, CInt.div, CInt.add, CInt.INT_MAX in *.
  rewrite (wrap_id (bestOf + 1))
    by (unfold CInt.in_range, CInt.INT_MIN, CInt.INT_MAX; lia).
  rewrite Z.quot_div_nonneg by lia.
  pose proof (Z.div_mod (bestOf + 1) 2 ltac:(lia)) as Hdm.
  assert ((bestOf + 1) mod 2 = 0) as E.
  { rewrite Z.add_mod by lia. rewrite Ho. reflexivity. }
  rewrite wrap_id
    by (unfold CInt.in_range, CInt.INT_MIN, CInt.INT_MAX; lia).
  lia.
Qed.

Lemma potential_start (bestOf : Z) :
  CInt.in_range bestOf ->
  rejected bestOf = false ->
  potential (start (wins_needed bestOf)) <= bestOf.
Proof.
  intros Hr Hacc.
  destruct (Z.eq_dec bestOf CInt.INT_MAX) as [-> | Hne].
  - vm_compute. discriminate.
  - assert (bestOf < CInt.INT_MAX) as Hlt
      by (unfold CInt.in_range in Hr; lia).
    destruct (wins_needed_no_overflow bestOf Hacc Hlt) as [_ H2].
    apply accepted_odd in Hacc.
    unfold potential. destruct (loop_test _); cbn [start n playerWins computerWins]; lia.
Qed.

(** C7, as amended. For every accepted best-of value N and every sequence
    of moves, the match has at most N rounds with a winner; tied rounds are
    played again and are not bounded. *)
Theorem match_decisive_rounds_bounded
  (bestOf : Z) (fuel : nat) (name : list ascii) (w : world) :
  CInt.in_range bestOf ->
  rejected bestOf = false ->
  exists d,
    w_out (snd (game_loop fuel name (start (wins_needed bestOf)) w))
    = w_out w ++ d /\
    decisive d <= bestOf.
Proof.
  intros Hr Hacc.
  assert (int_locals (start (wins_needed bestOf))) as Hint.
  { unfold int_locals, start. cbn. repeat split;
      try (unfold CInt.INT_MIN, CInt.INT_MAX; lia);
      apply wrap_range. }
  destruct (game_loop_decisive fuel name _ w Hint) as [d [Hd Hb]].
  exists d. split; [exact Hd | ].
  pose proof (potential_start bestOf Hr Hacc). lia.
Qed.

Lemma match_decisive_rounds_bounded_witness :
  exists d,
    w_out (snd (game_loop 5 (text "Bob") (start (wins_needed 3))
                          (sample_world 3 [2%N; 0%N; 2%N]
                                        ["stone"; "stone"; "stone"]%string)))
    = w_out (sample_world 3 [2%N; 0%N; 2%N] ["stone"; "stone"; "stone"]%string)
      ++ d /\
    decisive d <= 3.
Proof.
  apply (match_decisive_rounds_bounded
           3 5 (text "Bob")
           (sample_world 3 [2%N; 0%N; 2%N] ["stone"; "stone"; "stone"]%string)).
  - unfold CInt.in_range, CInt.INT_MIN, CInt.INT_MAX. lia.
  - reflexivity.
Defined.

(** C7, as stated, fails. A best-of-1 match in which the first round is a
    tie (stone against stone) and the second is won by the player has two
    rounds: the whole program, given the name, the count 1 and "stone"
    twice, plays both and ends with status 0. *)
Lemma best_of_one_takes_two_rounds :
  let w := sample_world 1 [0%N; 2%N] ["Bob"; "1"; "stone"; "stone"]%string in
  rejected 1 = false /\
  exit_status (main 5 w) = Some 0 /\
  rounds (w_out (snd (main 5 w))) = 2 /\
  ~ (rounds (w_out (snd (main 5 w))) <= 1) /\
  ~ (rounds (w_out (snd (game_loop 5 (text "Bob") (start (wins_needed 1))
                                   (sample_world 1 [0%N; 2%N]
                                                 ["stone"; "stone"]%string))))
     <= 1).
Proof.
  cbv zeta. repeat split; try (vm_compute; congruence).
Qed.

(** ** The scoreboard *)

Lemma in_scoreboards (nm : list ascii) (p c : Z) (d : list event) :
  In (Score nm p c) d <-> In (Score nm p c) (scoreboards d).
Proof.
  induction d as [ | e d IH]; [tauto | ].
  destruct e; cbn [scoreboards In]; rewrite <- IH;
    try (split; [intros [H | H]; [discriminate | exact H] | auto]).
  tauto.
Qed.

(** The scoreboard lines a pass through the loop body prints. *)
Lemma round_scoreboards (name : list ascii) (st : locals) (w : world) :
  exists d,
    w_out (snd (round name st w)) = w_out w ++ d /\
    match fst (round name st w) with
    | Ret st' =>
        scoreboards d =
        (if ongoing st'
         then [Score (cstring name) (playerWins st') (computerWins st')]
         else [])
    | _ => scoreboards d = []
    end.
Proof.
  destruct (round_shape_holds name st w)
    as [ w1 E | pc cc w1 w2 w' E1 E2 Hgo Hout
       | pc cc w1 w2 w3 w' o E1 E2 Hgo Hout Henv Ea ].
  - destruct (getPlayerChoice_emits w) as [d [Hd Hp]]. rewrite E in Hd.
    exists d. cbn [fst snd]. split; [exact Hd | ].
    apply (plain_counts d Hp).
  - destruct (getPlayerChoice_emits w) as [d [Hd Hp]]. rewrite E1 in Hd.
    destruct (randomNumber_1_3 w1) as [cc' [w2' [E2' [_ [Ho2 _]]]]].
    rewrite E2 in E2'. injection E2' as <- <-. cbn [snd] in Hd.
    eexists. cbn [fst snd]. split.
    { rewrite Hout, Ho2, Hd, <- app_assoc. reflexivity. }
    destruct (plain_counts d Hp) as [_ [_ Hd0]].
    rewrite scoreboards_app, Hd0, Hgo. reflexivity.
  - destruct (getPlayerChoice_emits w) as [d [Hd Hp]]. rewrite E1 in Hd.
    destruct (randomNumber_1_3 w1) as [cc' [w2' [E2' [_ [Ho2 _]]]]].
    rewrite E2 in E2'. injection E2' as <- <-. cbn [snd] in Hd.
    destruct (announce_emits name (score (resolve pc cc) st) w3) as [d' [Hd' Hp']].
    rewrite Ea in Hd'. cbn [snd] in Hd'.
    eexists. cbn [fst snd]. split.
    { rewrite Hd', Hout, Ho2, Hd, <- !app_assoc. reflexivity. }
    destruct (plain_counts d Hp) as [_ [_ Hd0]].
    destruct (plain_counts d' Hp') as [_ [_ Hd0']].
    rewrite !scoreboards_app, Hd0, Hd0'.
    destruct o; cbn [and_then]; try reflexivity.
    rewrite Hgo. reflexivity.
Qed.

(** Every scoreboard line the loop prints shows counters that both differ
    from [n]. *)
Lemma game_loop_scoreboards (fuel : nat) (name : list ascii) :
  forall (st : locals) (w : world),
  exists d,
    w_out (snd (game_loop fuel name st w)) = w_out w ++ d /\
    forall nm p c,
      In (Score nm p c) d -> nm = cstring name /\ p <> n st /\ c <> n st.
Proof.
  induction fuel as [ | fuel IH]; intros st w; cbn [game_loop];
    destruct ((playerWins st <? n st) && (computerWins st <? n st))%bool;
    try (exists []; cbn; rewrite app_nil_r; split; [reflexivity | ];
         intros nm p c []).
  destruct (round_scoreboards name st w) as [d1 [Hd1 Hs1]].
  unfold bind.
  destruct (round name st w) as [[st1 | c | | ] w1] eqn:Er; cbn [fst snd] in *;
    try (exists d1; split; [exact Hd1 | ];
         intros nm p c' Hin; apply in_scoreboards in Hin;
         rewrite Hs1 in Hin; destruct Hin).
  destruct (round_ret_inv _ _ _ _ _ Er) as [pc [cc [_ [_ [_ [_ Est]]]]]].
  assert (n st1 = n st) as Hn by (rewrite Est; apply score_n).
  destruct (IH st1 w1) as [d2 [Hd2 Hs2]].
  exists (d1 ++ d2). split.
  - rewrite Hd2, Hd1, app_assoc. reflexivity.
  - intros nm p c Hin. apply in_app_or in Hin. destruct Hin as [Hin | Hin].
    + apply in_scoreboards in Hin. rewrite Hs1 in Hin.
      destruct (ongoing st1) eqn:Hgo; [ | destruct Hin ].
      destruct Hin as [Heq | []]. injection Heq as <- <- <-.
      apply ongoing_true in Hgo. rewrite <- Hn. tauto.
    + rewrite <- Hn. apply Hs2. exact Hin.
Qed.

(** ** The banner *)

Lemma game_loop_done (fuel : nat) (name : list ascii) (st : locals) (w : world) :
  loop_test st = false -> game_loop fuel name st w = (Ret st, w).
Proof.
  intros H. destruct fuel; cbn [game_loop];
    change ((playerWins st <? n st) && (computerWins st <? n st))%bool
      with (loop_test st); rewrite H; reflexivity.
Qed.


Lemma match_over_tests (st : locals) :
  playerWins st = n st \/ computerWins st = n st ->
  ongoing st = false /\ loop_test st = false.
Proof.
  intros H. split.
  - unfold ongoing. destruct H as [-> | ->]; rewrite Z.eqb_refl;
      cbn; auto using andb_false_r.
  - apply loop_test_false. lia.
Qed.


Lemma add_out_env (d : list event) (w : world) : w_env (add_out d w) = w_env w.
Proof. reflexivity. Qed.

Lemma add_out_add_out (d d' : list event) (w : world) :
  add_out d' (add_out d w) = add_out (d ++ d') w.
Proof. unfold add_out. cbn. rewrite app_assoc. reflexivity. Qed.

(** Run the primitives at the head of a computation. *)
Ltac run_prims :=
  cbn [bind putchar printf perror emit fork waitpid exit ret fst snd].

(** What [announce] comes to in the process that forked. *)
Lemma announce_parent (name : list ascii) (st : locals) (w : world) :
  fork_ret (w_env w) <> 0 ->
  announce name st w =
  if fork_ret (w_env w) =? -1
  then (Exit 1, add_out (dots ++ [Err "Fork failed"]) w)
  else match wait_status (w_env w) with
       | Exited c =>
           if c =? 0
           then (Ret tt, add_out dots w)
           else (Exit 1, add_out (dots ++ [ErrStatus c]) w)
       | Signaled _ =>
           (Exit 1,
            add_out (dots ++ [Err "Child process terminated abnormally"]) w)
       end.
Proof.
  intros Hparent.
  unfold announce.
  run_prims.
  rewrite !add_out_add_out, !add_out_env.
  change ([Out (String LF "")] ++ [Out ("." ++ nl)] ++ [Out (".." ++ nl)] ++
          [Out ("..." ++ nl)] ++ [Out (String LF "")])%list with dots.
  destruct (Z.eqb_spec (fork_ret (w_env w)) (-1)) as [Hf | Hf].
  { run_prims. rewrite add_out_add_out. reflexivity. }
  destruct (Z.eqb_spec (fork_ret (w_env w)) 0) as [Hc | _]; [contradiction | ].
  run_prims. rewrite ?add_out_env.
  destruct (wait_status (w_env w)) as [c | sig];
    cbn [WIFEXITED WEXITSTATUS Z.eqb negb].
  - destruct (c =? 0); cbn [negb]; run_prims; [reflexivity | ].
    rewrite add_out_add_out. reflexivity.
  - run_prims. rewrite add_out_add_out. reflexivity.
Qed.

(** In the child, when figlet cannot be started, the child reports it and
    ends with status 1 (which the parent then finds with waitpid). *)
Lemma announce_child_exec_fails (name : list ascii) (st : locals) (w : world) :
  fork_ret (w_env w) = 0 ->
  exec_ok (w_env w) = false ->
  announce name st w =
  (Exit 1, add_out (dots ++ [Err "Figlet execution failed"]) w).
Proof.
  intros Hchild Hexec.
  unfold announce.
  run_prims.
  rewrite !add_out_add_out, !add_out_env.
  change ([Out (String LF "")] ++ [Out ("." ++ nl)] ++ [Out (".." ++ nl)] ++
          [Out ("..." ++ nl)] ++ [Out (String LF "")])%list with dots.
  rewrite Hchild. cbn [Z.eqb]. run_prims.
  unfold bind at 1, execvp. cbn [add_out w_env]. rewrite Hexec. run_prims.
  unfold add_out. cbn [w_env w_in w_calls w_out].
  rewrite <- app_assoc. reflexivity.
Qed.




(** ** Lines of input *)

Lemma in_firstn {A} (k : nat) (l : list A) (x : A) : In x (firstn k l) -> In x l.
Proof.
  intros H. rewrite <- (firstn_skipn k l). apply in_or_app. left. exact H.
Qed.

Lemma in_skipn {A} (k : nat) (l : list A) (x : A) : In x (skipn k l) -> In x l.
Proof.
  intros H. rewrite <- (firstn_skipn k l). apply in_or_app. right. exact H.
Qed.

Lemma cstring_no_nul (l : list ascii) : ~ In NUL l -> cstring l = l.
Proof.
  induction l as [ | c l IH]; intros H; [reflexivity | ].
  cbn [cstring]. destruct (Ascii.eqb_spec c NUL) as [-> | _].
  - exfalso. apply H. left. reflexivity.
  - f_equal. apply IH. intros Hin. apply H. right. exact Hin.
Qed.

Lemma cstring_app_nul (l r : list ascii) :
  ~ In NUL l -> cstring (l ++ NUL :: r) = l.
Proof.
  induction l as [ | c l IH]; intros H; [reflexivity | ].
  cbn [cstring app]. destruct (Ascii.eqb_spec c NUL) as [-> | _].
  - exfalso. apply H. left. reflexivity.
  - f_equal. apply IH. intros Hin. apply H. right. exact Hin.
Qed.

Lemma skip_line_no_lf (l : list ascii) : ~ In LF l -> skip_line l = [].
Proof.
  induction l as [ | c l IH]; intros H; [reflexivity | ].
  cbn [skip_line]. destruct (Ascii.eqb_spec c LF) as [-> | _].
  - exfalso. apply H. left. reflexivity.
  - apply IH. intros Hin. apply H. right. exact Hin.
Qed.

Lemma skip_line_app (l rest : list ascii) :
  ~ In LF l -> skip_line (l ++ LF :: rest) = rest.
Proof.
  induction l as [ | c l IH]; intros H; [reflexivity | ].
  cbn [skip_line app]. destruct (Ascii.eqb_spec c LF) as [-> | _].
  - exfalso. apply H. left. reflexivity.
  - apply IH. intros Hin. apply H. right. exact Hin.
Qed.

(** fgets on a line that fits: the line and its line feed. *)
Lemma fgets_take_fits (room : nat) (l rest : list ascii) :
  ~ In LF l -> (List.length l < room)%nat ->
  fgets_take room (l ++ LF :: rest) = (l ++ [LF], rest).
Proof.
  revert l. induction room as [ | room IH]; intros l H Hlen; [lia | ].
  destruct l as [ | c l]; cbn [fgets_take app].
  - reflexivity.
  - destruct (Ascii.eqb_spec c LF) as [-> | _].
    + exfalso. apply H. left. reflexivity.
    + rewrite IH; [reflexivity | | cbn in Hlen; lia].
      intros Hin. apply H. right. exact Hin.
Qed.

(** fgets on a line that does not fit: what there is room for. *)
Lemma fgets_take_cut (room : nat) (l tl : list ascii) :
  ~ In LF l -> (room <= List.length l)%nat ->
  fgets_take room (l ++ tl) = (firstn room l, skipn room l ++ tl).
Proof.
  revert l. induction room as [ | room IH]; intros l H Hlen.
  - destruct l; reflexivity.
  - destruct l as [ | c l]; [cbn in Hlen; lia | ].
    cbn [fgets_take app firstn skipn].
    destruct (Ascii.eqb_spec c LF) as [-> | _].
    + exfalso. apply H. left. reflexivity.
    + rewrite IH; [reflexivity | | cbn in Hlen; lia].
      intros Hin. apply H. right. exact Hin.
Qed.

(** fgets on a last line without line feed. *)
Lemma fgets_take_eof (room : nat) (l : list ascii) :
  ~ In LF l -> (List.length l <= room)%nat ->
  fgets_take room l = (l, []).
Proof.
  revert l. induction room as [ | room IH]; intros l H Hlen.
  - destruct l; [reflexivity | cbn in Hlen; lia].
  - destruct l as [ | c l]; [reflexivity | ].
    cbn [fgets_take].
    destruct (Ascii.eqb_spec c LF) as [-> | _].
    + exfalso. apply H. left. reflexivity.
    + rewrite IH; [reflexivity | | cbn in Hlen; lia].
      intros Hin. apply H. right. exact Hin.
Qed.

(** An array without line feed does not end in one. *)
Lemma last_not_lf (g : list ascii) :
  ~ In LF g ->
  (Nat.ltb 0 (List.length g) &&
   (nth (List.length g - 1) g NUL =? LF)%char)%bool = false.
Proof.
  intros H. destruct g as [ | c g]; [reflexivity | ].
  apply andb_false_iff. right. apply Ascii.eqb_neq. intros E.
  apply H. rewrite <- E. apply nth_In. cbn. lia.
Qed.

(** Storing NUL over the line feed that ends the array. *)
Lemma store_over_lf (l : list ascii) :
  store (l ++ [LF]) (List.length l) NUL = l ++ [NUL].
Proof.
  unfold store.
  rewrite firstn_app, firstn_all, Nat.sub_diag. cbn [firstn].
  rewrite app_nil_r.
  rewrite skipn_all2 by (rewrite length_app; cbn; lia). reflexivity.
Qed.

(** What [fgets] and the code behind it (cut the line feed, or else skip
    the rest of the line) make of a line [l]: the array holds the first
    [room] characters of [l], and the input stands behind the line. *)
Lemma line_read (room : nat) (l tl rest : list ascii) :
  (0 < room)%nat ->
  text_line l ->
  line_end l tl rest ->
  let got := fst (fgets_take room (l ++ tl)) in
  let inp := snd (fgets_take room (l ++ tl)) in
  let len := strlen got in
  let cut := (Nat.ltb 0 len && (nth (len - 1) got NUL =? LF)%char)%bool in
  got <> [] /\
  (if cut then store got (len - 1) NUL else got)
    = firstn room l ++ (if cut then [NUL] else []) /\
  len = (List.length (firstn room l) + (if cut then 1 else 0))%nat /\
  (if cut then inp else skip_line inp) = rest.
Proof.
  intros Hroom [Hlf Hnul] Hend.
  assert (Hlf' : forall k, ~ In LF (firstn k l))
    by (intros k H; apply Hlf; eapply in_firstn; exact H).
  assert (Hnul' : forall k, ~ In NUL (firstn k l))
    by (intros k H; apply Hnul; eapply in_firstn; exact H).
  assert (Hlfs : forall k, ~ In LF (skipn k l))
    by (intros k H; apply Hlf; eapply in_skipn; exact H).
  destruct (Nat.lt_ge_cases (List.length l) room) as [Hfit | Hcut].
  - destruct Hend as [-> | [-> [-> Hne]]].
    + (* the line and its line feed fit *)
      rewrite fgets_take_fits by assumption. cbn [fst snd]. cbv zeta.
      assert (Hs : strlen (l ++ [LF]) = S (List.length l)).
      { unfold strlen. rewrite cstring_no_nul.
        - rewrite length_app. cbn. lia.
        - intros H. apply in_app_or in H. destruct H as [H | [H | []]];
            [contradiction | discriminate]. }
      rewrite Hs. cbn [Nat.sub]. rewrite Nat.sub_0_r.
      rewrite nth_middle. cbn [Nat.ltb Nat.leb andb Ascii.eqb].
      replace (LF =? LF)%char with true by reflexivity.
      rewrite firstn_all2 by lia.
      repeat split.
      * destruct l; discriminate.
      * apply store_over_lf.
      * lia.
    + (* a last line that fits *)
      rewrite app_nil_r. rewrite fgets_take_eof by (assumption || lia).
      cbn [fst snd]. cbv zeta.
      unfold strlen. rewrite cstring_no_nul by assumption.
      rewrite last_not_lf by assumption.
      rewrite firstn_all2 by lia.
      repeat split; try assumption; try (rewrite app_nil_r; reflexivity); lia.
  - (* the line is cut *)
    rewrite fgets_take_cut by assumption. cbn [fst snd]. cbv zeta.
    unfold strlen. rewrite cstring_no_nul by apply Hnul'.
    rewrite last_not_lf by apply Hlf'.
    repeat split; try (rewrite app_nil_r; reflexivity); try lia.
    + intros E. apply (f_equal (@List.length ascii)) in E.
      rewrite length_firstn in E. cbn in E. lia.
    + destruct Hend as [-> | [-> [-> Hne]]].
      * apply skip_line_app. apply Hlfs.
      * rewrite app_nil_r. apply skip_line_no_lf. apply Hlfs.
Qed.

Lemma fgets_got (buf : list ascii) (size : nat) (w : world) :
  fst (fgets_take (size - 1) (w_in w)) <> [] ->
  fgets buf size w =
  (Ret (fst (fgets_take (size - 1) (w_in w))),
   set_in (snd (fgets_take (size - 1) (w_in w))) w).
Proof.
  unfold fgets. destruct (fgets_take (size - 1) (w_in w)) as [[ | c got] rest];
    cbn [fst snd]; [contradiction | reflexivity].
Qed.

(** ** The player's name *)

(** C10. For every line of text given as the player's name (ended by a line
    feed, or by the end of the input when it is not empty), the name kept
    is the first 19 characters of the line, without the line feed; the
    input then stands behind the line feed that ended the line (or at its
    end), however long the line was, so that nothing of the line is left
    for the next read; the name is asked for once, and an empty line gives
    the empty name. *)
Theorem player_name_read (l tl rest : list ascii) (w : world) :
  text_line l ->
  line_end l tl rest ->
  w_in w = l ++ tl ->
  exists buf w',
    read_player_name w = (Ret buf, w') /\
    cstring buf = firstn (MAX_PLAYER_NAME - 1) l /\
    (List.length (cstring buf) <= 19)%nat /\
    (l = [] -> cstring buf = []) /\
    w_in w' = rest /\
    w_out w' = w_out w ++ [Out nl; Out "Player name: "] /\
    w_env w' = w_env w.
Proof.
  intros Htext Hend Hin.
  pose proof (line_read (MAX_PLAYER_NAME - 1) l tl rest
                        ltac:(cbn; lia) Htext Hend) as H.
  cbv zeta in H. destruct H as [Hgot [Hbuf [Hlen Hrest]]].
  unfold read_player_name.
  cbn [bind uninit putchar printf emit fst snd].
  rewrite add_out_add_out.
  set (w1 := add_out _ w).
  assert (Hin1 : w_in w1 = l ++ tl) by exact Hin.
  unfold bind at 1.
  rewrite fgets_got by (rewrite Hin1; exact Hgot).
  rewrite Hin1.
  set (got := fst (fgets_take (MAX_PLAYER_NAME - 1) (l ++ tl))) in *.
  set (inp := snd (fgets_take (MAX_PLAYER_NAME - 1) (l ++ tl))) in *.
  assert (Hc : forall z, z = [] \/ z = [NUL] ->
               cstring (firstn (MAX_PLAYER_NAME - 1) l ++ z)
               = firstn (MAX_PLAYER_NAME - 1) l).
  { intros z [-> | ->].
    - rewrite app_nil_r. apply cstring_no_nul.
      intros Hx. apply (proj2 Htext). eapply in_firstn. exact Hx.
    - apply cstring_app_nul.
      intros Hx. apply (proj2 Htext). eapply in_firstn. exact Hx. }
  destruct (Nat.ltb 0 (strlen got) &&
            (nth (strlen got - 1) got NUL =? LF)%char)%bool.
  - eexists _, _. split; [reflexivity | ].
    rewrite Hbuf, Hc by auto.
    split; [reflexivity | ].
    split; [rewrite length_firstn; apply Nat.le_min_l | ].
    split; [intros ->; reflexivity | ].
    split; [exact Hrest | ].
    split; reflexivity.
  - cbn [bind clearInputBuffer ret fst snd].
    eexists _, _. split; [reflexivity | ].
    rewrite Hbuf, Hc by auto.
    split; [reflexivity | ].
    split; [rewrite length_firstn; apply Nat.le_min_l | ].
    split; [intros ->; reflexivity | ].
    split; [exact Hrest | ].
    split; reflexivity.
Qed.

Lemma player_name_read_witness :
  exists buf w',
    read_player_name
      (sample_world 3 [] ["Bartholomew Fitzgerald III"; "3"]%string)
    = (Ret buf, w') /\
    cstring buf = firstn (MAX_PLAYER_NAME - 1) (text "Bartholomew Fitzgerald III") /\
    (List.length (cstring buf) <= 19)%nat /\
    (text "Bartholomew Fitzgerald III" = [] -> cstring buf = []) /\
    w_in w' = lines ["3"%string] /\
    w_out w' =
      w_out (sample_world 3 [] ["Bartholomew Fitzgerald III"; "3"]%string)
      ++ [Out nl; Out "Player name: "] /\
    w_env w' =
      w_env (sample_world 3 [] ["Bartholomew Fitzgerald III"; "3"]%string).
Proof.
  apply (player_name_read
           (text "Bartholomew Fitzgerald III")
           (LF :: lines ["3"%string]) (lines ["3"%string])
           (sample_world 3 [] ["Bartholomew Fitzgerald III"; "3"]%string)).
  - split; cbn; intros H;
      repeat (destruct H as [H | H]; [discriminate H | ]); exact H.
  - left. reflexivity.
  - reflexivity.
Defined.

(** ** The player's choice *)

Lemma tolower_nul (c : ascii) : tolower c = NUL -> c = NUL.
Proof.
  destruct c as [b0 b1 b2 b3 b4 b5 b6 b7].
  destruct b0, b1, b2, b3, b4, b5, b6, b7; vm_compute; congruence.
Qed.

Lemma map_tolower_no_nul (g : list ascii) :
  ~ In NUL g -> ~ In NUL (map tolower g).
Proof.
  intros H Hin. apply in_map_iff in Hin. destruct Hin as [c [E Hc]].
  apply tolower_nul in E. subst c. contradiction.
Qed.

Ltac compare_words :=
  unfold choice_of, text;
  repeat match goal with
         | |- context [list_eq_dec ascii_dec ?a ?b] =>
             destruct (list_eq_dec ascii_dec a b)
         end;
  try reflexivity.

(** One attempt of [getPlayerChoice] on a line of text: the first 8
    characters of the line, in lower case, are compared with the three
    words; the whole line is used up. *)
Lemma attempt_on_line (k : nat) (l tl rest : list ascii) (w : world) :
  text_line l ->
  line_end l tl rest ->
  w_in w = l ++ tl ->
  getPlayerChoice_loop (S k) w =
  match read_choice l with
  | Some c => (Ret c, after_attempt rest w)
  | None =>
      getPlayerChoice_loop k
        (add_out [Out ("Invalid Choice..." ++ nl)] (after_attempt rest w))
  end.
Proof.
  intros Htext Hend Hin. unfold read_choice.
  pose proof (line_read (MAX_CHOICE_INPUT_LENGTH - 1) l tl rest
                        ltac:(cbn; lia) Htext Hend) as H.
  cbv zeta in H. destruct H as [Hgot [Hbuf [Hlen Hrest]]].
  cbn [getPlayerChoice_loop].
  cbn [bind uninit putchar printf emit fst snd].
  rewrite add_out_add_out.
  set (w1 := add_out _ w).
  assert (Hin1 : w_in w1 = l ++ tl) by exact Hin.
  unfold bind at 1.
  rewrite fgets_got by (rewrite Hin1; exact Hgot).
  rewrite Hin1.
  set (got := fst (fgets_take (MAX_CHOICE_INPUT_LENGTH - 1) (l ++ tl))) in *.
  set (inp := snd (fgets_take (MAX_CHOICE_INPUT_LENGTH - 1) (l ++ tl))) in *.
  set (g := firstn (MAX_CHOICE_INPUT_LENGTH - 1) l) in *.
  assert (Hg : ~ In NUL g)
    by (intros Hx; apply (proj2 Htext); eapply in_firstn; exact Hx).
  cbn [bind putchar emit fst snd].
  assert (Hword : forall z j,
            (z = [] /\ j = 0%nat) \/ (z = [NUL] /\ j = 1%nat) ->
            cstring (map tolower (firstn (List.length g + j) (g ++ z)) ++
                     skipn (List.length g + j) (g ++ z))
            = map tolower g).
  { intros z j Hz.
    assert (List.length (g ++ z) = (List.length g + j)%nat) as Hl
      by (rewrite length_app; destruct Hz as [[-> ->] | [-> ->]]; reflexivity).
    rewrite firstn_all2 by lia.
    rewrite skipn_all2 by lia.
    rewrite app_nil_r, map_app.
    destruct Hz as [[-> ->] | [-> ->]]; cbn [map].
    - rewrite app_nil_r. apply cstring_no_nul, map_tolower_no_nul, Hg.
    - replace (tolower NUL) with NUL by reflexivity.
      apply cstring_app_nul, map_tolower_no_nul, Hg. }
  destruct (Nat.ltb 0 (strlen got) &&
            (nth (strlen got - 1) got NUL =? LF)%char)%bool.
  - cbn [bind ret fst snd].
    rewrite Hbuf, Hlen.
    unfold strcmp_eq. rewrite (Hword [NUL] 1%nat) by auto.
    replace (add_out [Out (String LF "")] (set_in inp w1))
      with (after_attempt rest w).
    2:{ unfold after_attempt, w1, set_in, add_out. cbn.
        rewrite Hrest, <- app_assoc. reflexivity. }
    compare_words.
  - cbn [bind ret clearInputBuffer fst snd].
    rewrite Hlen, Hbuf.
    unfold strcmp_eq. rewrite (Hword [] 0%nat) by auto.
    replace (set_in (skip_line (w_in (add_out [Out (String LF "")] (set_in inp w1))))
                    (add_out [Out (String LF "")] (set_in inp w1)))
      with (after_attempt rest w).
    2:{ unfold after_attempt, w1, set_in, add_out. cbn.
        rewrite Hrest, <- app_assoc. reflexivity. }
    compare_words.
Qed.

(** Where the array is long enough for the line, or the line does not
    start with "scissors", [getPlayerChoice] takes the line as the
    specification words it. *)
Lemma read_choice_spec (l : list ascii) :
  (List.length l <= 8)%nat \/
  map tolower (firstn 8 l) <> text "scissors" ->
  read_choice l = spec_choice l.
Proof.
  unfold read_choice, spec_choice.
  change (MAX_CHOICE_INPUT_LENGTH - 1)%nat with 8%nat.
  destruct (Nat.le_gt_cases (List.length l) 8) as [Hle | Hgt].
  - intros _. rewrite firstn_all2 by assumption. reflexivity.
  - intros [Hle | Hne]; [lia | ].
    assert (L8 : List.length (map tolower (firstn 8 l)) = 8%nat)
      by (rewrite length_map, length_firstn; lia).
    assert (Ll : List.length (map tolower l) = List.length l)
      by apply length_map.
    unfold choice_of.
    repeat match goal with
           | |- context [list_eq_dec ascii_dec ?a ?b] =>
               destruct (list_eq_dec ascii_dec a b) as [E | _];
               [ try contradiction;
                 apply (f_equal (@List.length ascii)) in E;
                 rewrite ?L8, ?Ll in E;
                 cbn [List.length text list_ascii_of_string] in E;
                 exfalso; lia | ]
           end.
    reflexivity.
Qed.

(** A line of more than 8 characters that starts with "scissors", in any
    mix of cases, is no choice as the specification words it, and is
    taken for Scissors. *)
Lemma read_choice_overlong (l : list ascii) :
  (8 < List.length l)%nat ->
  map tolower (firstn 8 l) = text "scissors" ->
  spec_choice l = None /\ read_choice l = Some 3.
Proof.
  intros Hgt E. unfold read_choice, spec_choice.
  change (MAX_CHOICE_INPUT_LENGTH - 1)%nat with 8%nat. rewrite E.
  split; [ | reflexivity ].
  assert (Ll : List.length (map tolower l) = List.length l)
    by apply length_map.
  unfold choice_of.
  repeat match goal with
         | |- context [list_eq_dec ascii_dec ?a ?b] =>
             destruct (list_eq_dec ascii_dec a b) as [E' | _];
             [ apply (f_equal (@List.length ascii)) in E';
               rewrite ?Ll in E';
               cbn [List.length text list_ascii_of_string] in E';
               exfalso; lia | ]
         end.
  reflexivity.
Qed.

(** [k] lines that [getPlayerChoice] rejects use up [k] attempts: each is
    answered by "Invalid Choice...", and when no attempt is left the
    process ends with status 1 behind "Too many invalid inputs...". *)
Lemma rejected_lines_exit (ls : list (list ascii)) :
  forall (rest : list ascii) (w : world),
    Forall text_line ls ->
    Forall (fun l => read_choice l = None) ls ->
    w_in w = feed ls ++ rest ->
    exists w',
      getPlayerChoice_loop (List.length ls) w = (Exit 1, w') /\
      w_in w' = rest /\
      w_out w' =
        w_out w ++ List.concat (repeat rejection (List.length ls)) ++
        [Out ("Too many invalid inputs..." ++ nl)] /\
      w_env w' = w_env w /\
      w_calls w' = w_calls w.
Proof.
  induction ls as [ | l ls IH]; intros rest w Htext Hrej Hin.
  - exists (add_out [Out ("Too many invalid inputs..." ++ nl)] w).
    cbn in Hin. repeat split; try reflexivity. exact Hin.
  - inversion Htext as [ | ? ? Hl Hls]; subst.
    inversion Hrej as [ | ? ? Rl Rls]; subst.
    cbn [feed flat_map] in Hin. rewrite <- !app_assoc in Hin.
    cbn [app] in Hin. fold (feed ls) in Hin.
    cbn [List.length].
    rewrite (attempt_on_line _ l (LF :: feed ls ++ rest) (feed ls ++ rest) w
               Hl (or_introl eq_refl) Hin).
    rewrite Rl.
    destruct (IH rest
                 (add_out [Out ("Invalid Choice..." ++ nl)]
                          (after_attempt (feed ls ++ rest) w))
                 Hls Rls eq_refl) as [w' [E [Hi [Ho [He Hc]]]]].
    exists w'. split; [exact E | ]. split; [exact Hi | ].
    split; [ | split; assumption ].
    rewrite Ho. cbn [repeat List.concat w_out add_out after_attempt set_in].
    unfold rejection. rewrite <- !app_assoc. reflexivity.
Qed.

(** Upper case, lower case and mixed case are taken alike. *)
Example read_choice_cases :
  read_choice (text "STONE") = Some 1 /\
  read_choice (text "Stone") = Some 1 /\
  read_choice (text "sToNe") = Some 1 /\
  read_choice (text "PAPER") = Some 2 /\
  read_choice (text "Scissors") = Some 3 /\
  read_choice (text "rock") = None.
Proof. repeat split; reflexivity. Qed.

(** C4. The reader does not take exactly the three words: the array holds
    8 characters, so of the line "scissorsabc" the comparison sees
    "scissors".  The line is no choice as the specification words it, yet
    [getPlayerChoice] returns 3 (Scissors) on it, without "Invalid
    Choice..." and without a second attempt: the next line is still
    unread. *)
Theorem overlong_scissors_line_accepted :
  let w := sample_world 3 [] ["scissorsabc"; "stone"]%string in
  spec_choice (text "scissorsabc") = None /\
  fst (getPlayerChoice w) = Ret 3 /\
  w_in (snd (getPlayerChoice w)) = lines ["stone"%string] /\
  w_out (snd (getPlayerChoice w)) =
    [Out nl; Out "Stone, Paper or Scissors: "; Out nl].
Proof. cbv zeta. repeat split; vm_compute; reflexivity. Qed.

(** Five lines that [getPlayerChoice] rejects end the process in the
    middle of the loop: status 1, no triptych, nothing scored. *)
Lemma five_rejected_lines_end_process
  (fuel : nat) (name : list ascii) (st : locals)
  (ls : list (list ascii)) (rest : list ascii) (w : world) :
  List.length ls = MAX_CHOICE_ATTEMPTS ->
  Forall text_line ls ->
  Forall (fun l => read_choice l = None) ls ->
  w_in w = feed ls ++ rest ->
  loop_test st = true ->
  exists w',
    game_loop (S fuel) name st w = (Exit 1, w') /\
    w_in w' = rest /\
    w_out w' =
      w_out w ++ List.concat (repeat rejection MAX_CHOICE_ATTEMPTS) ++
      [Out ("Too many invalid inputs..." ++ nl)] /\
    rounds (w_out w') = rounds (w_out w).
Proof.
  intros Hlen Htext Hrej Hin Ht.
  destruct (rejected_lines_exit ls rest w Htext Hrej Hin)
    as [w' [E [Hi [Ho _]]]].
  rewrite Hlen in E, Ho. fold getPlayerChoice in E.
  exists w'. cbn [game_loop].
  change ((playerWins st <? n st) && (computerWins st <? n st))%bool
    with (loop_test st).
  rewrite Ht. unfold bind at 1, round, bind at 1. rewrite E.
  split; [reflexivity | ]. split; [exact Hi | ]. split; [exact Ho | ].
  rewrite Ho, rounds_app. cbn. lia.
Qed.

(** C5. Five lines in a row that are no choice as the specification words
    it do not always end the process: on five lines "scissorsabc" in a
    best-of-1 match the first is taken for Scissors, the round is played
    against the computer's Paper and scored for the player, and the process
    ends with status 0. *)
Theorem five_overlong_lines_play_a_round :
  let five := repeat "scissorsabc"%string 5 in
  let w := sample_world 1 [1%N] ("Bob" :: "1" :: five)%string in
  Forall (fun l => spec_choice (text l) = None) five /\
  exit_status (main 5 w) = Some 0 /\
  rounds (w_out (snd (main 5 w))) = 1 /\
  In (ArtPrint scissors vs paper ART_HEIGHT) (w_out (snd (main 5 w))) /\
  ~ In (Out ("Too many invalid inputs..." ++ nl)) (w_out (snd (main 5 w))).
Proof.
  cbv zeta. split; [repeat constructor | ].
  split; [vm_compute; reflexivity | ].
  split; [vm_compute; reflexivity | ].
  split.
  - vm_compute. tauto.
  - vm_compute. intros H.
    repeat (destruct H as [H | H]; [discriminate H | ]). exact H.
Qed.

(** ** The validation of the best-of count *)

Lemma read_player_name_total : total read_player_name.
Proof. unfold read_player_name. repeat total_step. Qed.

(** [main] up to the match loop: the name is read, the count is scanned,
    the rest of its line is skipped; then the three ways on. *)
Lemma main_validates (fuel : nat) (w : world) :
  exists name w1 r v inp,
    read_player_name w = (Ret name, w1) /\
    scanf_i (w_env w1) (w_in w1) = (r, v, inp) /\
    let w2 := set_in (skip_line inp) (add_out [Out nl; Out "Best of: "] w1) in
    (r <> 1 ->
       main fuel w =
       (Exit 1, add_out [Out ("Invalid input..." ++ nl ++ nl)] w2)) /\
    (r = 1 -> rejected v = true ->
       main fuel w =
       (Exit 1,
        add_out [Out nl; Out ("Only positive odd integers are valid..." ++ nl ++ nl)]
                w2)) /\
    (r = 1 -> rejected v = false ->
       main fuel w =
       (game_loop fuel name (start (wins_needed v)) ;; ret 0) w2).
Proof.
  destruct (read_player_name_total w) as [name [w1 E]].
  destruct (scanf_i (w_env w1) (w_in w1)) as [[r v] inp] eqn:Es.
  exists name, w1, r, v, inp. split; [exact E | ]. split; [exact Es | ].
  cbv zeta.
  assert (Hm : main fuel w =
    (if negb (r =? 1) then
       printf ("Invalid input..." ++ nl ++ nl) ;; exit 1
     else if rejected v then
       putchar LF ;;
       printf ("Only positive odd integers are valid..." ++ nl ++ nl) ;;
       exit 1
     else
       game_loop fuel name (start (wins_needed v)) ;; ret 0)
    (set_in (skip_line inp) (add_out [Out nl; Out "Best of: "] w1))).
  { unfold main. unfold bind at 1. rewrite E.
    cbn [bind putchar printf emit fst snd].
    rewrite add_out_add_out.
    unfold bind at 1, scanf_int.
    cbn [add_out w_env w_in]. rewrite Es.
    cbn [bind clearInputBuffer fst snd]. reflexivity. }
  rewrite Hm. repeat split.
  - intros Hr. apply Z.eqb_neq in Hr. rewrite Hr. reflexivity.
  - intros -> Hv. rewrite Hv. cbn [Z.eqb Pos.eqb negb].
    cbn [bind putchar printf emit exit fst snd].
    rewrite add_out_add_out. reflexivity.
  - intros -> Hv. rewrite Hv. reflexivity.
Qed.

(** C2. The count [INT_MAX] is positive and odd, and it is accepted; but
    [bestOf + 1] then overflows [int], so that [n] is not (bestOf+1)/2 =
    1073741824: with the wrap-around it is -1073741824.  The loop test
    fails at once, no round is played and the process ends with status 0. *)
Theorem best_of_int_max_plays_no_round :
  let w := sample_world 2147483647 [2%N] ["Bob"; "2147483647"; "stone"]%string in
  rejected 2147483647 = false /\
  (2147483647 + 1) / 2 = 1073741824 /\
  wins_needed 2147483647 = -1073741824 /\
  (forall fuel,
     exit_status (main fuel w) = Some 0 /\
     w_out (snd (main fuel w)) =
       [Out nl; Out "Player name: "; Out nl; Out "Best of: "] /\
     w_in (snd (main fuel w)) = lines ["stone"%string]).
Proof.
  cbv zeta.
  split; [reflexivity | ]. split; [reflexivity | ]. split; [reflexivity | ].
  intros fuel.
  destruct (main_validates
              fuel
              (sample_world 2147483647 [2%N]
                            ["Bob"; "2147483647"; "stone"]%string))
    as [name [w1 [r [v [inp [E1 [E2 [_ [_ H]]]]]]]]].
  vm_compute in E1. injection E1 as <- <-.
  vm_compute in E2. injection E2 as <- <- <-.
  cbv zeta in H. rewrite (H eq_refl eq_refl). clear H.
  unfold bind. rewrite game_loop_done by reflexivity.
  repeat split; vm_compute; reflexivity.
Qed.

(** * More of the program: facts *)

(** ** [asciiArtPrinter] *)

Lemma asciiArtPrinter_lines_some (height : nat) :
  forall art1 art2 art3 : list string,
    (height <= List.length art1)%nat ->
    (height <= List.length art2)%nat ->
    (height <= List.length art3)%nat ->
    exists printed,
      asciiArtPrinter_lines art1 art2 art3 height = Some printed /\
      List.length printed = height /\
      forall i, (i < height)%nat ->
        nth i printed EmptyString =
        (nth i art1 EmptyString ++ nth i art2 EmptyString ++
         nth i art3 EmptyString ++ nl)%string.
Proof.
  induction height as [ | height IH]; intros art1 art2 art3 H1 H2 H3.
  - exists []. split; [reflexivity | ]. split; [reflexivity | ].
    intros i Hi. lia.
  - destruct art1 as [ | row1 art1]; [cbn in H1; lia | ].
    destruct art2 as [ | row2 art2]; [cbn in H2; lia | ].
    destruct art3 as [ | row3 art3]; [cbn in H3; lia | ].
    cbn [List.length] in H1, H2, H3.
    destruct (IH art1 art2 art3 ltac:(lia) ltac:(lia) ltac:(lia))
      as [printed [E [Hlen Hnth]]].
    cbn [asciiArtPrinter_lines]. rewrite E.
    eexists. split; [reflexivity | ]. split; [cbn; lia | ].
    intros [ | i] Hi; [reflexivity | ].
    cbn [nth]. apply Hnth. lia.
Qed.

Lemma asciiArtPrinter_lines_none (height : nat) :
  forall art1 art2 art3 : list string,
    (List.length art1 < height)%nat \/
    (List.length art2 < height)%nat \/
    (List.length art3 < height)%nat ->
    asciiArtPrinter_lines art1 art2 art3 height = None.
Proof.
  induction height as [ | height IH]; intros art1 art2 art3 H; [lia | ].
  cbn [asciiArtPrinter_lines].
  destruct art1 as [ | row1 art1]; [reflexivity | ].
  destruct art2 as [ | row2 art2]; [reflexivity | ].
  destruct art3 as [ | row3 art3]; [reflexivity | ].
  rewrite IH; [reflexivity | cbn [List.length] in H; lia].
Qed.

(** X1. [asciiArtPrinter] stays inside its three arrays exactly when each
    of them has at least [height] rows; it then prints [height] lines, and
    line [i] is row [i] of the first array, row [i] of the second and row
    [i] of the third, side by side, with a line feed. *)
Theorem asciiArtPrinter_prints_rows_side_by_side
  (art1 art2 art3 : list string) (height : nat) :
  ((height <= List.length art1)%nat /\
   (height <= List.length art2)%nat /\
   (height <= List.length art3)%nat ->
   exists printed,
     asciiArtPrinter_lines art1 art2 art3 height = Some printed /\
     List.length printed = height /\
     forall i, (i < height)%nat ->
       nth i printed EmptyString =
       (nth i art1 EmptyString ++ nth i art2 EmptyString ++
        nth i art3 EmptyString ++ nl)%string) /\
  ((List.length art1 < height)%nat \/
   (List.length art2 < height)%nat \/
   (List.length art3 < height)%nat ->
   asciiArtPrinter_lines art1 art2 art3 height = None).
Proof.
  split.
  - intros [H1 [H2 H3]]. apply asciiArtPrinter_lines_some; assumption.
  - apply asciiArtPrinter_lines_none.
Qed.

Lemma art_pair_lines (a1 a3 : art) :
  exists printed,
    printed_lines (ArtPrint a1 vs a3 ART_HEIGHT) = Some printed /\
    List.length printed = 20%nat /\
    Forall (fun line => String.length line = 181%nat) printed.
Proof.
  destruct a1, a3; eexists; (split; [vm_compute; reflexivity | ]);
    (split; [reflexivity | repeat constructor]).
Qed.

(** X2. Whatever the two choices, the round prints one triptych, the
    player's art on the left, the [vs] table in the middle and the
    computer's art on the right; the printer stays inside the three tables
    and prints [ART_HEIGHT] = 20 lines, each 180 characters and a line
    feed wide (180 is the width figlet is given). *)
Theorem round_triptych_in_bounds (pc cc : Z) (st : locals) (w : world) :
  exists printed,
    w_out (snd (round_logic pc cc st w)) =
    w_out w ++ [ArtPrint (art_of pc) vs (art_of cc) ART_HEIGHT] /\
    printed_lines (ArtPrint (art_of pc) vs (art_of cc) ART_HEIGHT)
    = Some printed /\
    List.length printed = Z.to_nat ART_HEIGHT /\
    Forall (fun line => String.length line = 181%nat) printed.
Proof.
  destruct (art_pair_lines (art_of pc) (art_of cc)) as [printed [E [L F]]].
  exists printed. rewrite round_logic_resolve.
  split; [reflexivity | ]. split; [exact E | ]. split; assumption.
Qed.

(** ** [randomNumber] *)

(** X3. For [min <= max] whose distance does not overflow an [int],
    [randomNumber(min, max)] calls rand() exactly once, prints and reads
    nothing, and returns a number between [min] and [max], both
    included. *)
Theorem randomNumber_between (min max : Z) (w : world) :
  CInt.in_range min ->
  CInt.in_range max ->
  min <= max ->
  max - min < CInt.INT_MAX ->
  exists r w',
    randomNumber min max w = (Ret r, w') /\
    min <= r <= max /\
    w_calls w' = S (w_calls w) /\
    w_out w' = w_out w /\
    w_in w' = w_in w /\
    w_env w' = w_env w.
Proof.
  intros Hmin Hmax Hle Hd.
  unfold randomNumber, bind, rand, ret. eexists _, _.
  split; [reflexivity | ]. split; [ | cbn; auto ].
  set (r := Z.of_N _). assert (0 <= r) by (subst r; lia).
  unfold CInt.in_range, CInt.INT_MIN, CInt.INT_MAX in *.
  unfold CInt.rem, CInt.add, CInt.sub.
  rewrite (wrap_id (max - min))
    by (unfold CInt.in_range, CInt.INT_MIN, CInt.INT_MAX; lia).
  rewrite (wrap_id (max - min + 1))
    by (unfold CInt.in_range, CInt.INT_MIN, CInt.INT_MAX; lia).
  pose proof (Z.rem_bound_pos r (max - min + 1) ltac:(lia) ltac:(lia)) as Hb.
  rewrite wrap_id
    by (unfold CInt.in_range, CInt.INT_MIN, CInt.INT_MAX; lia).
  lia.
Qed.

Lemma randomNumber_between_witness :
  exists r w',
    randomNumber (-2) 5 (sample_world 3 [11%N] []) = (Ret r, w') /\
    -2 <= r <= 5 /\
    w_calls w' = S (w_calls (sample_world 3 [11%N] [])) /\
    w_out w' = w_out (sample_world 3 [11%N] []) /\
    w_in w' = w_in (sample_world 3 [11%N] []) /\
    w_env w' = w_env (sample_world 3 [11%N] []).
Proof.
  apply (randomNumber_between (-2) 5 (sample_world 3 [11%N] []));
    unfold CInt.in_range, CInt.INT_MIN, CInt.INT_MAX; lia.
Defined.

(** ** [getPlayerChoice] on any input *)

Lemma left_of_refl (inp : list ascii) : left_of inp inp.
Proof. exists []. reflexivity. Qed.

Lemma left_of_trans (a b c : list ascii) :
  left_of a b -> left_of b c -> left_of a c.
Proof.
  intros [r1 ->] [r2 ->]. exists (r1 ++ r2). rewrite app_assoc. reflexivity.
Qed.

Lemma fgets_take_split (room : nat) :
  forall inp, inp = fst (fgets_take room inp) ++ snd (fgets_take room inp).
Proof.
  induction room as [ | room IH]; intros inp.
  - destruct inp; reflexivity.
  - destruct inp as [ | c inp]; [reflexivity | ].
    cbn [fgets_take]. destruct (c =? LF)%char; [reflexivity | ].
    specialize (IH inp). destruct (fgets_take room inp) as [got rest].
    cbn [fst snd app] in *. congruence.
Qed.

Lemma fgets_take_length (room : nat) :
  forall inp, (List.length (fst (fgets_take room inp)) <= room)%nat.
Proof.
  induction room as [ | room IH]; intros inp.
  - destruct inp; cbn; lia.
  - destruct inp as [ | c inp]; [cbn; lia | ].
    cbn [fgets_take]. destruct (c =? LF)%char; [cbn; lia | ].
    specialize (IH inp). destruct (fgets_take room inp) as [got rest].
    cbn [fst List.length] in *. lia.
Qed.

Lemma skip_line_left (inp : list ascii) : left_of inp (skip_line inp).
Proof.
  induction inp as [ | c inp [r IH]]; [apply left_of_refl | ].
  cbn [skip_line]. destruct (c =? LF)%char.
  - exists [c]. reflexivity.
  - exists (c :: r). cbn. rewrite <- IH. reflexivity.
Qed.

Lemma fgets_left (buf : list ascii) (size : nat) (w : world) :
  left_of (w_in w) (w_in (snd (fgets buf size w))).
Proof.
  unfold fgets.
  pose proof (fgets_take_split (size - 1) (w_in w)) as E.
  destruct (fgets_take (size - 1) (w_in w)) as [[ | c got] rest];
    cbn [fst snd set_in w_in] in *.
  - apply left_of_refl.
  - exists (c :: got). exact E.
Qed.

(** An attempt, behind its prompt and its call of [fgets]. *)
Lemma attempt_behind_fgets (k : nat) (w wf : world) (buf : list ascii) :
  fgets (garbage (w_env w)) MAX_CHOICE_INPUT_LENGTH
        (add_out [Out nl; Out "Stone, Paper or Scissors: "] w)
  = (Ret buf, wf) ->
  getPlayerChoice_loop (S k) w =
  (tempPlayerChoice <-
     (if (Nat.ltb 0 (strlen buf) &&
          (nth (strlen buf - 1) buf NUL =? LF)%char)%bool
      then ret (store buf (strlen buf - 1) NUL)
      else clearInputBuffer ;; ret buf) ;;
   if strcmp_eq (map tolower (firstn (strlen buf) tempPlayerChoice) ++
                 skipn (strlen buf) tempPlayerChoice) "stone" then ret 1
   else if strcmp_eq (map tolower (firstn (strlen buf) tempPlayerChoice) ++
                      skipn (strlen buf) tempPlayerChoice) "paper" then ret 2
   else if strcmp_eq (map tolower (firstn (strlen buf) tempPlayerChoice) ++
                      skipn (strlen buf) tempPlayerChoice) "scissors" then ret 3
   else
     printf ("Invalid Choice..." ++ nl) ;;
     getPlayerChoice_loop k)
    (add_out [Out nl] wf).
Proof.
  intros E.
  cbn [getPlayerChoice_loop].
  cbn [bind uninit putchar printf emit fst snd].
  rewrite add_out_add_out.
  unfold bind at 1.
  change ([Out (String LF "")] ++ [Out "Stone, Paper or Scissors: "])%list
    with [Out nl; Out "Stone, Paper or Scissors: "].
  change (w_env (add_out [Out nl; Out "Stone, Paper or Scissors: "] w))
    with (w_env w).
  rewrite E. reflexivity.
Qed.

(** One attempt of [getPlayerChoice], whatever the input holds: the prompt,
    then a choice returned or "Invalid Choice..." and the next attempt. *)
Lemma attempt_any (k : nat) (w : world) :
  exists w1,
    w_out w1 = w_out w ++ prompt /\
    w_env w1 = w_env w /\
    w_calls w1 = w_calls w /\
    left_of (w_in w) (w_in w1) /\
    ((exists c, (c = 1 \/ c = 2 \/ c = 3) /\
                getPlayerChoice_loop (S k) w = (Ret c, w1)) \/
     getPlayerChoice_loop (S k) w =
     getPlayerChoice_loop k (add_out [Out ("Invalid Choice..." ++ nl)] w1)).
Proof.
  set (w0 := add_out [Out nl; Out "Stone, Paper or Scissors: "] w).
  pose proof (fgets_left (garbage (w_env w)) MAX_CHOICE_INPUT_LENGTH w0) as Hleft.
  pose proof (fgets_silent (garbage (w_env w)) MAX_CHOICE_INPUT_LENGTH w0) as Hout.
  pose proof (keeps_env_fgets (garbage (w_env w)) MAX_CHOICE_INPUT_LENGTH w0) as Henv.
  assert (Hcalls : w_calls (snd (fgets (garbage (w_env w)) MAX_CHOICE_INPUT_LENGTH w0))
                   = w_calls w0).
  { unfold fgets. destruct (fgets_take _ _) as [[ | c got] rest]; reflexivity. }
  destruct (total_fgets (garbage (w_env w)) MAX_CHOICE_INPUT_LENGTH w0)
    as [buf [wf Ef]].
  rewrite Ef in *. cbn [snd] in *.
  rewrite (attempt_behind_fgets k w wf buf Ef).
  destruct (Nat.ltb 0 (strlen buf) &&
            (nth (strlen buf - 1) buf NUL =? LF)%char)%bool;
    cbn [bind ret clearInputBuffer fst snd];
    match goal with
    | |- context [(if strcmp_eq _ "stone" then _ else _) ?wx] => exists wx
    end;
    (split; [cbn [w_out add_out set_in]; rewrite Hout; unfold w0;
             cbn [w_out add_out]; rewrite <- !app_assoc; reflexivity | ]);
    (split; [cbn [w_env add_out set_in]; rewrite Henv; reflexivity | ]);
    (split; [cbn [w_calls add_out set_in]; rewrite Hcalls; reflexivity | ]);
    (split; [cbn [w_in add_out set_in];
             first [ exact Hleft
                   | eapply left_of_trans; [exact Hleft | apply skip_line_left] ]
            | ]);
    match goal with
    | |- context [strcmp_eq ?b "stone"] =>
        destruct (strcmp_eq b "stone"); [left; exists 1; auto | ];
        destruct (strcmp_eq b "paper"); [left; exists 2; auto | ];
        destruct (strcmp_eq b "scissors"); [left; exists 3; auto | ]
    end;
    right; reflexivity.
Qed.

Lemma getPlayerChoice_loop_shape (k : nat) :
  forall w,
  exists w',
    w_env w' = w_env w /\
    w_calls w' = w_calls w /\
    left_of (w_in w) (w_in w') /\
    ((exists j c,
        (j < k)%nat /\ (c = 1 \/ c = 2 \/ c = 3) /\
        getPlayerChoice_loop k w = (Ret c, w') /\
        w_out w' = w_out w ++ List.concat (repeat rejection j) ++ prompt) \/
     (getPlayerChoice_loop k w = (Exit 1, w') /\
      w_out w' =
        w_out w ++ List.concat (repeat rejection k) ++
        [Out ("Too many invalid inputs..." ++ nl)])).
Proof.
  induction k as [ | k IH]; intros w.
  - exists (add_out [Out ("Too many invalid inputs..." ++ nl)] w).
    split; [reflexivity | ]. split; [reflexivity | ].
    split; [apply left_of_refl | ]. right. split; reflexivity.
  - destruct (attempt_any k w) as [w1 [Ho [He [Hc [Hl Hcase]]]]].
    destruct Hcase as [[c [Hcv E]] | E].
    + exists w1. split; [exact He | ]. split; [exact Hc | ].
      split; [exact Hl | ]. left. exists 0%nat, c.
      split; [lia | ]. split; [exact Hcv | ]. split; [exact E | exact Ho].
    + destruct (IH (add_out [Out ("Invalid Choice..." ++ nl)] w1))
        as [w' [He' [Hc' [Hl' Hcase']]]].
      exists w'. rewrite E.
      split; [rewrite He'; exact He | ].
      split; [rewrite Hc'; exact Hc | ].
      split; [eapply left_of_trans; [exact Hl | exact Hl'] | ].
      assert (Hpre : forall tail,
                w_out (add_out [Out ("Invalid Choice..." ++ nl)] w1) ++ tail
                = w_out w ++ rejection ++ tail).
      { intros tail. cbn [w_out add_out]. rewrite Ho.
        unfold rejection, prompt. rewrite <- !app_assoc. reflexivity. }
      destruct Hcase' as [[j [c [Hj [Hcv [E' Ho']]]]] | [E' Ho']].
      * left. exists (S j), c. split; [lia | ]. split; [exact Hcv | ].
        split; [exact E' | ].
        rewrite Ho', Hpre. cbn [repeat List.concat].
        rewrite <- !app_assoc. reflexivity.
      * right. split; [exact E' | ].
        rewrite Ho', Hpre. cbn [repeat List.concat].
        rewrite <- !app_assoc. reflexivity.
Qed.

(** X4. Whatever standard input holds (any bytes, or nothing at all),
    [getPlayerChoice] either returns 1, 2 or 3 after fewer than 5 rejected
    attempts, or ends the process with status 1 after exactly 5 rejected
    attempts and the line "Too many invalid inputs...".  Each attempt
    prints the prompt once, each rejected one "Invalid Choice..." behind
    it; the input is only read forward, no random number is drawn and the
    environment is left as it is. *)
Theorem getPlayerChoice_prompts_at_most_five_times (w : world) :
  exists w',
    w_env w' = w_env w /\
    w_calls w' = w_calls w /\
    left_of (w_in w) (w_in w') /\
    ((exists j c,
        (j < MAX_CHOICE_ATTEMPTS)%nat /\ (c = 1 \/ c = 2 \/ c = 3) /\
        getPlayerChoice w = (Ret c, w') /\
        w_out w' = w_out w ++ List.concat (repeat rejection j) ++ prompt) \/
     (getPlayerChoice w = (Exit 1, w') /\
      w_out w' =
        w_out w ++ List.concat (repeat rejection MAX_CHOICE_ATTEMPTS) ++
        [Out ("Too many invalid inputs..." ++ nl)])).
Proof. exact (getPlayerChoice_loop_shape MAX_CHOICE_ATTEMPTS w). Qed.

(** ** [getPlayerChoice] on lines of text *)

Lemma rejected_then_accepted (ls : list (list ascii)) :
  forall (j : nat) (l rest : list ascii) (c : Z) (w : world),
    Forall text_line ls ->
    Forall (fun l' => read_choice l' = None) ls ->
    text_line l ->
    read_choice l = Some c ->
    w_in w = feed ls ++ l ++ LF :: rest ->
    exists w',
      getPlayerChoice_loop (List.length ls + S j) w = (Ret c, w') /\
      w_in w' = rest /\
      w_out w' =
        w_out w ++ List.concat (repeat rejection (List.length ls)) ++ prompt /\
      w_env w' = w_env w /\
      w_calls w' = w_calls w.
Proof.
  induction ls as [ | l0 ls IH]; intros j l rest c w Htext Hrej Hl Hc Hin.
  - cbn [feed flat_map app] in Hin. cbn [List.length Nat.add].
    rewrite (attempt_on_line j l (LF :: rest) rest w Hl (or_introl eq_refl) Hin).
    rewrite Hc. exists (after_attempt rest w).
    repeat split; reflexivity.
  - inversion Htext as [ | ? ? Hl0 Hls]; subst.
    inversion Hrej as [ | ? ? Rl0 Rls]; subst.
    cbn [feed flat_map] in Hin. rewrite <- !app_assoc in Hin.
    cbn [app] in Hin. fold (feed ls) in Hin.
    cbn [List.length Nat.add].
    rewrite (attempt_on_line _ l0 (LF :: feed ls ++ l ++ LF :: rest)
               (feed ls ++ l ++ LF :: rest) w Hl0 (or_introl eq_refl) Hin).
    rewrite Rl0.
    destruct (IH j l rest c
                 (add_out [Out ("Invalid Choice..." ++ nl)]
                          (after_attempt (feed ls ++ l ++ LF :: rest) w))
                 Hls Rls Hl Hc eq_refl) as [w' [E [Hi [Ho [He Hcl]]]]].
    exists w'. split; [exact E | ]. split; [exact Hi | ].
    split; [ | split; assumption ].
    rewrite Ho. cbn [repeat List.concat w_out add_out after_attempt set_in].
    unfold rejection. rewrite <- !app_assoc. reflexivity.
Qed.

(** X5. Fewer than 5 lines of text that the comparison rejects, followed
    by a line whose first 8 characters are, in lower case, one of the three
    words: [getPlayerChoice] answers each rejected line with "Invalid
    Choice...", returns the number of the word, and has then read exactly
    these lines. *)
Theorem getPlayerChoice_retries_until_a_word
  (ls : list (list ascii)) (l rest : list ascii) (c : Z) (w : world) :
  (List.length ls < MAX_CHOICE_ATTEMPTS)%nat ->
  Forall text_line ls ->
  Forall (fun l' => read_choice l' = None) ls ->
  text_line l ->
  read_choice l = Some c ->
  w_in w = feed ls ++ l ++ LF :: rest ->
  exists w',
    getPlayerChoice w = (Ret c, w') /\
    w_in w' = rest /\
    w_out w' =
      w_out w ++ List.concat (repeat rejection (List.length ls)) ++ prompt /\
    w_env w' = w_env w /\
    w_calls w' = w_calls w.
Proof.
  intros Hlen Htext Hrej Hl Hc Hin.
  unfold getPlayerChoice.
  replace MAX_CHOICE_ATTEMPTS
    with (List.length ls + S (MAX_CHOICE_ATTEMPTS - S (List.length ls)))%nat
    by lia.
  apply (rejected_then_accepted ls _ l rest c w); assumption.
Qed.

Lemma getPlayerChoice_retries_until_a_word_witness :
  exists w',
    getPlayerChoice (sample_world 3 [] ["rock"; ""; "PaPeR"; "stone"]%string)
    = (Ret 2, w') /\
    w_in w' = lines ["stone"%string] /\
    w_out w' =
      w_out (sample_world 3 [] ["rock"; ""; "PaPeR"; "stone"]%string) ++
      List.concat (repeat rejection (List.length [text "rock"; text ""])) ++
      prompt /\
    w_env w' = w_env (sample_world 3 [] ["rock"; ""; "PaPeR"; "stone"]%string) /\
    w_calls w' = w_calls (sample_world 3 [] ["rock"; ""; "PaPeR"; "stone"]%string).
Proof.
  apply (getPlayerChoice_retries_until_a_word
           [text "rock"; text ""] (text "PaPeR") (lines ["stone"%string]) 2
           (sample_world 3 [] ["rock"; ""; "PaPeR"; "stone"]%string)).
  - unfold MAX_CHOICE_ATTEMPTS. cbn. lia.
  - repeat constructor; cbn; intros H;
      repeat (destruct H as [H | H]; [discriminate H | ]); exact H.
  - repeat constructor.
  - split; cbn; intros H;
      repeat (destruct H as [H | H]; [discriminate H | ]); exact H.
  - reflexivity.
  - reflexivity.
Defined.

(** X6. Five lines of text in a row that the comparison rejects, in a
    round of the match: the process ends with status 1 behind five
    "Invalid Choice..." and "Too many invalid inputs..."; exactly the five
    lines are read, no triptych is printed and no random number drawn. *)
Theorem five_rejected_lines_exit_status_1
  (fuel : nat) (name : list ascii) (st : locals)
  (ls : list (list ascii)) (rest : list ascii) (w : world) :
  List.length ls = MAX_CHOICE_ATTEMPTS ->
  Forall text_line ls ->
  Forall (fun l => read_choice l = None) ls ->
  w_in w = feed ls ++ rest ->
  loop_test st = true ->
  exists w',
    game_loop (S fuel) name st w = (Exit 1, w') /\
    w_in w' = rest /\
    w_out w' =
      w_out w ++ List.concat (repeat rejection MAX_CHOICE_ATTEMPTS) ++
      [Out ("Too many invalid inputs..." ++ nl)] /\
    rounds (w_out w') = rounds (w_out w) /\
    w_calls w' = w_calls w.
Proof.
  intros Hlen Htext Hrej Hin Ht.
  destruct (rejected_lines_exit ls rest w Htext Hrej Hin)
    as [w' [E [Hi [Ho [_ Hc]]]]].
  rewrite Hlen in E, Ho. fold getPlayerChoice in E.
  exists w'. cbn [game_loop].
  change ((playerWins st <? n st) && (computerWins st <? n st))%bool
    with (loop_test st).
  rewrite Ht. unfold bind at 1, round, bind at 1. rewrite E.
  split; [reflexivity | ]. split; [exact Hi | ]. split; [exact Ho | ].
  split; [ | exact Hc ].
  rewrite Ho, rounds_app. cbn. lia.
Qed.

Lemma five_rejected_lines_exit_status_1_witness :
  exists w',
    game_loop 3 (text "Bob") (start 2)
      (sample_world 3 [] ["rock"; "stones"; ""; "lizard"; "spock"; "paper"]%string)
    = (Exit 1, w') /\
    w_in w' = lines ["paper"%string] /\
    w_out w' =
      w_out (sample_world 3 []
               ["rock"; "stones"; ""; "lizard"; "spock"; "paper"]%string) ++
      List.concat (repeat rejection MAX_CHOICE_ATTEMPTS) ++
      [Out ("Too many invalid inputs..." ++ nl)] /\
    rounds (w_out w') =
    rounds (w_out (sample_world 3 []
                     ["rock"; "stones"; ""; "lizard"; "spock"; "paper"]%string)) /\
    w_calls w' =
    w_calls (sample_world 3 []
               ["rock"; "stones"; ""; "lizard"; "spock"; "paper"]%string).
Proof.
  apply (five_rejected_lines_exit_status_1
           2 (text "Bob") (start 2)
           [text "rock"; text "stones"; text ""; text "lizard"; text "spock"]
           (lines ["paper"%string])
           (sample_world 3 []
              ["rock"; "stones"; ""; "lizard"; "spock"; "paper"]%string)).
  - reflexivity.
  - repeat constructor; cbn; intros H;
      repeat (destruct H as [H | H]; [discriminate H | ]); exact H.
  - repeat constructor.
  - reflexivity.
  - reflexivity.
Defined.

Lemma firstn_map {A B} (f : A -> B) (k : nat) (l : list A) :
  firstn k (map f l) = map f (firstn k l).
Proof.
  revert l. induction k as [ | k IH]; intros [ | x l]; cbn; try reflexivity.
  rewrite IH. reflexivity.
Qed.

(** X7. The comparison does not see the case of letters: two lines of text
    that are equal in lower case, in front of the same rest of the input,
    get the same answer from an attempt of [getPlayerChoice] and leave the
    same world behind. *)
Theorem getPlayerChoice_ignores_case
  (k : nat) (l l' tl rest : list ascii) (w : world) :
  text_line l ->
  text_line l' ->
  line_end l tl rest ->
  line_end l' tl rest ->
  map tolower l = map tolower l' ->
  getPlayerChoice_loop (S k) (set_in (l ++ tl) w) =
  getPlayerChoice_loop (S k) (set_in (l' ++ tl) w).
Proof.
  intros Hl Hl' He He' Hcase.
  rewrite (attempt_on_line k l tl rest (set_in (l ++ tl) w) Hl He eq_refl).
  rewrite (attempt_on_line k l' tl rest (set_in (l' ++ tl) w) Hl' He' eq_refl).
  assert (read_choice l = read_choice l') as ->.
  { unfold read_choice. rewrite <- !firstn_map, Hcase. reflexivity. }
  reflexivity.
Qed.

Lemma getPlayerChoice_ignores_case_witness :
  getPlayerChoice_loop 5
    (set_in (text "sCiSsOrS" ++ LF :: text "x")
            (sample_world 3 [] [])) =
  getPlayerChoice_loop 5
    (set_in (text "Scissors" ++ LF :: text "x")
            (sample_world 3 [] [])).
Proof.
  apply (getPlayerChoice_ignores_case
           4 (text "sCiSsOrS") (text "Scissors") (LF :: text "x") (text "x")
           (sample_world 3 [] [])).
  - split; cbn; intros H;
      repeat (destruct H as [H | H]; [discriminate H | ]); exact H.
  - split; cbn; intros H;
      repeat (destruct H as [H | H]; [discriminate H | ]); exact H.
  - left. reflexivity.
  - left. reflexivity.
  - reflexivity.
Defined.

(** ** [clearInputBuffer] *)

(** X8. [clearInputBuffer] always returns; it reads up to and including
    the first line feed and nothing behind it, or everything when there is
    no line feed left (in particular nothing at the end of the input); it
    prints nothing and draws nothing. *)
Theorem clearInputBuffer_skips_one_line (w : world) :
  exists w',
    clearInputBuffer w = (Ret tt, w') /\
    w_out w' = w_out w /\
    w_env w' = w_env w /\
    w_calls w' = w_calls w /\
    (forall l rest,
       ~ In LF l -> w_in w = l ++ LF :: rest -> w_in w' = rest) /\
    (~ In LF (w_in w) -> w_in w' = []) /\
    (w_in w = [] -> w' = w).
Proof.
  exists (set_in (skip_line (w_in w)) w).
  split; [reflexivity | ]. split; [reflexivity | ].
  split; [reflexivity | ]. split; [reflexivity | ].
  cbn [w_in set_in]. split; [ | split ].
  - intros l rest Hl ->. apply skip_line_app. exact Hl.
  - apply skip_line_no_lf.
  - intros E. destruct w as [e i c o]. cbn in E. subst i. reflexivity.
Qed.

(** ** The name array *)

Lemma fgets_take_nonempty (room : nat) (inp : list ascii) :
  (0 < room)%nat -> inp <> [] -> fst (fgets_take room inp) <> [].
Proof.
  intros Hr Hi. destruct room as [ | room]; [lia | ].
  destruct inp as [ | c inp]; [contradiction | ].
  cbn [fgets_take]. destruct (c =? LF)%char; [discriminate | ].
  destruct (fgets_take room inp) as [got rest]. discriminate.
Qed.

Lemma cstring_length (buf : list ascii) :
  (List.length (cstring buf) <= List.length buf)%nat.
Proof.
  induction buf as [ | c buf IH]; [cbn; lia | ].
  cbn [cstring]. destruct (c =? NUL)%char; cbn [List.length]; lia.
Qed.

Lemma store_length (buf : list ascii) (i : nat) (c : ascii) :
  (i < List.length buf)%nat -> List.length (store buf i c) = List.length buf.
Proof.
  intros Hi. unfold store.
  rewrite length_app. cbn [List.length].
  rewrite length_firstn, length_skipn. lia.
Qed.

(** X9. When there is input left, whatever bytes it holds, the name read
    by [main] takes at most 19 places of the 20-byte array (the terminator
    has the last), the string in it has at most 19 characters, the prompt
    is printed once and the input is only read forward. *)
Theorem player_name_fits_array (w : world) :
  w_in w <> [] ->
  exists buf w',
    read_player_name w = (Ret buf, w') /\
    (List.length buf < MAX_PLAYER_NAME)%nat /\
    (List.length (cstring buf) < MAX_PLAYER_NAME)%nat /\
    left_of (w_in w) (w_in w') /\
    w_out w' = w_out w ++ [Out nl; Out "Player name: "] /\
    w_calls w' = w_calls w.
Proof.
  intros Hin.
  unfold read_player_name.
  cbn [bind uninit putchar printf emit fst snd].
  rewrite add_out_add_out.
  set (w1 := add_out _ w).
  assert (Hin1 : w_in w1 = w_in w) by reflexivity.
  pose proof (fgets_take_nonempty (MAX_PLAYER_NAME - 1) (w_in w)
                ltac:(cbn; lia) Hin) as Hgot.
  pose proof (fgets_take_length (MAX_PLAYER_NAME - 1) (w_in w)) as Hlen.
  pose proof (fgets_take_split (MAX_PLAYER_NAME - 1) (w_in w)) as Hsplit.
  unfold bind at 1.
  rewrite fgets_got by (rewrite Hin1; exact Hgot).
  rewrite Hin1.
  set (got := fst (fgets_take (MAX_PLAYER_NAME - 1) (w_in w))) in *.
  set (inp := snd (fgets_take (MAX_PLAYER_NAME - 1) (w_in w))) in *.
  change (MAX_PLAYER_NAME - 1)%nat with 19%nat in Hlen.
  change MAX_PLAYER_NAME with 20%nat.
  pose proof (cstring_length got) as Hc.
  destruct (Nat.ltb 0 (strlen got) &&
            (nth (strlen got - 1) got NUL =? LF)%char)%bool eqn:Hcut.
  - apply andb_true_iff in Hcut. destruct Hcut as [Hpos _].
    apply Nat.ltb_lt in Hpos. unfold strlen in *.
    assert (Hs : List.length (store got (List.length (cstring got) - 1) NUL)
                 = List.length got) by (apply store_length; lia).
    pose proof (cstring_length (store got (List.length (cstring got) - 1) NUL)).
    eexists _, _. split; [reflexivity | ].
    split; [lia | ]. split; [lia | ].
    split; [exists got; exact Hsplit | ].
    split; reflexivity.
  - cbn [bind clearInputBuffer ret fst snd].
    eexists _, _. split; [reflexivity | ].
    split; [lia | ]. split; [lia | ].
    split.
    + cbn [w_in set_in]. eapply left_of_trans;
        [exists got; exact Hsplit | apply skip_line_left].
    + split; reflexivity.
Qed.

Lemma player_name_fits_array_witness :
  exists buf w',
    read_player_name
      (set_in (text "A name with a NUL" ++ [NUL] ++ text " inside and much more text")
              (sample_world 3 [] []))
    = (Ret buf, w') /\
    (List.length buf < MAX_PLAYER_NAME)%nat /\
    (List.length (cstring buf) < MAX_PLAYER_NAME)%nat /\
    left_of
      (w_in (set_in (text "A name with a NUL" ++ [NUL] ++
                     text " inside and much more text")
                    (sample_world 3 [] [])))
      (w_in w') /\
    w_out w' =
      w_out (set_in (text "A name with a NUL" ++ [NUL] ++
                     text " inside and much more text")
                    (sample_world 3 [] [])) ++
      [Out nl; Out "Player name: "] /\
    w_calls w' =
    w_calls (set_in (text "A name with a NUL" ++ [NUL] ++
                     text " inside and much more text")
                    (sample_world 3 [] [])).
Proof.
  apply (player_name_fits_array
           (set_in (text "A name with a NUL" ++ [NUL] ++
                    text " inside and much more text")
                   (sample_world 3 [] []))).
  cbn. discriminate.
Defined.

(** ** The banner and the passes through the loop body, in full *)

Lemma announce_result_holds (name : list ascii) (st : locals) (w : world) :
  exists d,
    announce_result name st (w_env w) (fst (announce name st w)) d /\
    w_out (snd (announce name st w)) = w_out w ++ dots ++ d /\
    w_env (snd (announce name st w)) = w_env w /\
    w_calls (snd (announce name st w)) = w_calls w.
Proof.
  destruct (Z.eq_dec (fork_ret (w_env w)) 0) as [Hchild | Hparent].
  - destruct (exec_ok (w_env w)) eqn:Hexec.
    + exists [win_message name st].
      assert (E : announce name st w =
                  (Replaced, add_out (dots ++ [win_message name st]) w)).
      { unfold announce. run_prims.
        rewrite !add_out_add_out, !add_out_env.
        change ([Out (String LF "")] ++ [Out ("." ++ nl)] ++ [Out (".." ++ nl)] ++
                [Out ("..." ++ nl)] ++ [Out (String LF "")])%list with dots.
        rewrite Hchild. cbn [Z.eqb]. run_prims.
        unfold bind at 1, execvp. cbn [add_out w_env]. rewrite Hexec.
        cbn [emit snd]. rewrite add_out_add_out. reflexivity. }
      rewrite E. cbn [fst snd].
      split; [apply child_replaced; assumption | ].
      repeat split; reflexivity.
    + exists [Err "Figlet execution failed"].
      rewrite (announce_child_exec_fails name st w Hchild Hexec). cbn [fst snd].
      split; [apply child_failed; assumption | ].
      repeat split; reflexivity.
  - rewrite (announce_parent name st w Hparent).
    destruct (Z.eqb_spec (fork_ret (w_env w)) (-1)) as [Hf | Hf].
    { exists [Err "Fork failed"]. cbn [fst snd].
      split; [apply banner_failed; [assumption | exact I] | ].
      repeat split; reflexivity. }
    destruct (wait_status (w_env w)) as [c | sig] eqn:Hs.
    + destruct (Z.eqb_spec c 0) as [-> | Hc].
      * exists []. cbn [fst snd].
        split; [apply banner_shown; assumption | ].
        rewrite app_nil_r. repeat split; reflexivity.
      * exists [ErrStatus c]. cbn [fst snd].
        split; [apply banner_failed; [assumption | exact I] | ].
        repeat split; reflexivity.
    + exists [Err "Child process terminated abnormally"]. cbn [fst snd].
      split; [apply banner_failed; [assumption | exact I] | ].
      repeat split; reflexivity.
Qed.

Lemma art_of_tie (pc cc : Z) :
  art_eqb (art_of pc) (art_of cc) =
  match resolve pc cc with Tie => true | _ => false end.
Proof.
  unfold art_of, resolve.
  destruct (pc =? 1), (pc =? 2), (cc =? 1), (cc =? 2); reflexivity.
Qed.

Lemma getPlayerChoice_keeps_calls (w : world) :
  w_calls (snd (getPlayerChoice w)) = w_calls w.
Proof.
  destruct (getPlayerChoice_loop_shape MAX_CHOICE_ATTEMPTS w)
    as [w' [_ [Hc [_ [[j [c [_ [_ [E _]]]]] | [E _]]]]]];
    fold getPlayerChoice in E; rewrite E; exact Hc.
Qed.

Lemma randomNumber_draws_once (min max : Z) (w : world) :
  w_calls (snd (randomNumber min max w)) = S (w_calls w).
Proof. reflexivity. Qed.

(** Every pass through the loop body comes out in one of the ways of
    [round_result]. *)
Lemma round_result_holds (name : list ascii) (st : locals) (w : world) :
  exists d k,
    round_result name st (w_env w) (fst (round name st w)) d k /\
    w_out (snd (round name st w)) = w_out w ++ d /\
    w_calls (snd (round name st w)) = (w_calls w + k)%nat /\
    w_env (snd (round name st w)) = w_env w.
Proof.
  pose proof (getPlayerChoice_emits w) as [d0 [Hd0 Hp0]].
  pose proof (getPlayerChoice_keeps_env w) as He0.
  pose proof (getPlayerChoice_keeps_calls w) as Hc0.
  destruct (getPlayerChoice_cases w) as [[w1 E] | [pc [w1 [E _]]]];
    rewrite E in *; cbn [fst snd] in *.
  - assert (Er : round name st w = (Exit 1, w1))
      by (unfold round, bind at 1; rewrite E; reflexivity).
    rewrite Er. cbn [fst snd].
    exists d0, 0%nat. split; [apply reader_gave_up; exact Hp0 | ].
    split; [exact Hd0 | ]. split; [lia | exact He0].
  - destruct (randomNumber_1_3 w1) as [cc [w2 [Ecc [_ [Hout [Henv _]]]]]].
    pose proof (randomNumber_draws_once 1 3 w1) as Hc1.
    rewrite Ecc in Hc1. cbn [snd] in Hc1.
    set (st' := score (resolve pc cc) st).
    set (w3 := add_out [ArtPrint (art_of pc) vs (art_of cc) ART_HEIGHT] w2).
    assert (Er : round name st w =
                 (st'' <- (after_round name st' ;; ret st') ;; ret st'') w3).
    { unfold round, bind at 1. rewrite E.
      unfold bind at 1. rewrite Ecc.
      unfold bind at 1. rewrite round_logic_resolve. cbn [snd emit].
      unfold bind. fold st' w3.
      destruct (after_round name st' w3) as [[[] | c | | ] w4]; reflexivity. }
    rewrite Er. clear Er. unfold after_round.
    change (negb (playerWins st' =? n st') && negb (computerWins st' =? n st'))%bool
      with (ongoing st').
    destruct (ongoing st') eqn:Hgo.
    + cbn [bind putchar emit ret fst snd]. rewrite !add_out_add_out.
      eexists _, 1%nat.
      split; [apply (round_goes_on name st (w_env w) (resolve pc cc) d0
                       (art_of pc) (art_of cc));
              [exact Hp0 | apply art_of_tie | exact Hgo] | ].
      split; [ | split ].
      * cbn [w3 w_out add_out]. rewrite Hout, Hd0, <- !app_assoc. reflexivity.
      * cbn [w3 w_calls add_out]. lia.
      * cbn [w3 w_env add_out]. congruence.
    + destruct (announce_result_holds name st' w3) as [d1 [Ha [Ho [Hen Hca]]]].
      assert (Henv3 : w_env w3 = w_env w) by (cbn [w3 w_env add_out]; congruence).
      rewrite Henv3 in Ha, Hen.
      unfold bind.
      destruct (announce name st' w3) as [res w'] eqn:Ea. cbn [fst snd] in *.
      exists (d0 ++ [ArtPrint (art_of pc) vs (art_of cc) ART_HEIGHT] ++ dots ++ d1),
             1%nat.
      assert (Em : (match res with
                    | Ret _ => ret st' w'
                    | Exit c => (Exit c, w')
                    | Replaced => (Replaced, w')
                    | Spin => (Spin, w')
                    end) = (and_then res st', w')) by (destruct res; reflexivity).
      destruct res as [[] | c | | ]; cbn [ret fst snd and_then] in *;
        (split; [apply (round_ends_match name st (w_env w) (resolve pc cc)
                          d0 d1 (art_of pc) (art_of cc) _
                          Hp0 (art_of_tie pc cc) Hgo Ha) | ]);
        (split; [rewrite Ho; cbn [w3 w_out add_out];
                 rewrite Hout, Hd0, <- !app_assoc; reflexivity | ]);
        (split; [rewrite Hca; cbn [w3 w_calls add_out]; lia | exact Hen]).
Qed.

Lemma announce_result_plain name st e res d :
  announce_result name st e res d -> Forall plain d.
Proof.
  intros H. destruct H; repeat constructor. assumption.
Qed.

(** What the events of a pass through the loop body count up to. *)
Lemma round_result_counts name st e res d k :
  round_result name st e res d k ->
  rounds d = Z.of_nat k /\
  (res = Exit 1 \/ res = Replaced \/
   exists o,
     res = Ret (score o st) /\
     decisive d = match o with Tie => 0 | _ => 1 end /\
     scoreboards d =
       if ongoing (score o st)
       then [Score (cstring name) (playerWins (score o st))
                   (computerWins (score o st))]
       else []).
Proof.
  intros H.
  destruct H as [ d Hp | o d0 a1 a3 Hp Ha Hgo
                | o d0 d1 a1 a3 res Hp Ha Hgo Hres ].
  - destruct (plain_counts d Hp) as [-> _]. split; [reflexivity | auto].
  - destruct (plain_counts d0 Hp) as [R0 [D0 S0]].
    rewrite rounds_app, R0. split; [reflexivity | ].
    right. right. exists o. split; [reflexivity | ].
    rewrite decisive_app, scoreboards_app, D0, S0, Hgo.
    cbn [decisive scoreboards app]. rewrite Ha.
    split; [destruct o; reflexivity | reflexivity].
  - destruct (plain_counts d0 Hp) as [R0 [D0 S0]].
    destruct (plain_counts d1 (announce_result_plain _ _ _ _ _ Hres))
      as [R1 [D1 S1]].
    rewrite rounds_app, R0.
    change ([ArtPrint a1 vs a3 ART_HEIGHT] ++ dots ++ d1)%list
      with (ArtPrint a1 vs a3 ART_HEIGHT :: (dots ++ d1)).
    cbn [rounds]. rewrite rounds_app, R1.
    split; [reflexivity | ].
    destruct Hres; cbn [and_then]; auto.
    right. right. exists o. split; [reflexivity | ].
    rewrite decisive_app, scoreboards_app, D0, S0, Hgo.
    cbn [decisive scoreboards app dots]. rewrite Ha.
    split; [destruct o; reflexivity | reflexivity].
Qed.

Lemma round_result_exit name st e c d k :
  round_result name st e (Exit c) d k -> c = 1.
Proof.
  intros H. inversion H as [ | | o d0 d1 a1 a3 res Hp Ha Hgo Hres Ho ];
    subst; try reflexivity.
  destruct Hres; cbn [and_then] in Ho; try discriminate; congruence.
Qed.

Lemma round_result_replaced name st e d k :
  round_result name st e Replaced d k ->
  fork_ret e = 0 /\ exec_ok e = true /\
  exists o d0,
    ongoing (score o st) = false /\
    d = d0 ++ [win_message name (score o st)].
Proof.
  intros H. inversion H as [ | | o d0 d1 a1 a3 res Hp Ha Hgo Hres Ho ]; subst.
  destruct Hres as [ | | | Hf He ]; cbn [and_then] in Ho; try discriminate.
  split; [exact Hf | ]. split; [exact He | ].
  exists o, (d0 ++ [ArtPrint a1 vs a3 ART_HEIGHT] ++ dots).
  split; [exact Hgo | ]. rewrite <- !app_assoc. reflexivity.
Qed.

Section MatchAccounts.

Variable name : list ascii.

(** The loop draws one random number for every round it plays. *)
Lemma game_loop_draws (fuel : nat) :
  forall (st : locals) (w : world),
  exists d,
    w_out (snd (game_loop fuel name st w)) = w_out w ++ d /\
    Z.of_nat (w_calls (snd (game_loop fuel name st w)))
    = Z.of_nat (w_calls w) + rounds d /\
    w_env (snd (game_loop fuel name st w)) = w_env w.
Proof.
  induction fuel as [ | fuel IH]; intros st w; cbn [game_loop];
    destruct ((playerWins st <? n st) && (computerWins st <? n st))%bool;
    try (exists []; cbn; rewrite app_nil_r; repeat split; lia).
  destruct (round_result_holds name st w) as [d1 [k [Hr [Ho [Hc He]]]]].
  destruct (round_result_counts _ _ _ _ _ _ Hr) as [Hk _].
  unfold bind.
  destruct (round name st w) as [[st1 | c | | ] w1]; cbn [fst snd] in *;
    try (exists d1; split; [exact Ho | ]; split; [lia | exact He]).
  destruct (IH st1 w1) as [d2 [Ho2 [Hc2 He2]]].
  exists (d1 ++ d2). split; [rewrite Ho2, Ho, app_assoc; reflexivity | ].
  split; [rewrite Hc2, rounds_app; lia | congruence].
Qed.

(** If the process ends inside the loop, its status is 1; it is replaced
    by figlet only in the child of fork(). *)
Lemma game_loop_outcome (fuel : nat) :
  forall (st : locals) (w : world),
    match fst (game_loop fuel name st w) with
    | Exit c => c = 1
    | Replaced => fork_ret (w_env w) = 0 /\ exec_ok (w_env w) = true
    | _ => True
    end.
Proof.
  induction fuel as [ | fuel IH]; intros st w; cbn [game_loop];
    destruct ((playerWins st <? n st) && (computerWins st <? n st))%bool;
    try exact I.
  destruct (round_result_holds name st w) as [d1 [k [Hr [Ho [Hc He]]]]].
  unfold bind.
  destruct (round name st w) as [[st1 | c | | ] w1]; cbn [fst snd] in *.
  - specialize (IH st1 w1). rewrite He in IH. exact IH.
  - eapply round_result_exit. exact Hr.
  - destruct (round_result_replaced _ _ _ _ _ Hr) as [Hf [Hx _]]. auto.
  - exact I.
Qed.

Lemma reaches_stuck (st st' : locals) (w w' : world) :
  loop_test st = false -> reaches name st w st' w' -> st' = st /\ w' = w.
Proof.
  intros Hf H. inversion H; subst; [split; reflexivity | congruence].
Qed.

(** Along a run, the rounds with a winner in the trace are the wins
    counted, and every round but one that ends the match has its
    scoreboard line. *)
Lemma reaches_accounts (st st' : locals) (w w' : world) :
  reaches name st w st' w' ->
  match_inv st ->
  exists d,
    w_out w' = w_out w ++ d /\
    decisive d =
      (playerWins st' + computerWins st') - (playerWins st + computerWins st) /\
    decisive d <= rounds d /\
    rounds d = Z.of_nat (List.length (scoreboards d))
               + (if loop_test st then if loop_test st' then 0 else 1 else 0).
Proof.
  induction 1 as [st w | st st1 st2 w w1 w2 Ht Hr Hre IH]; intros Hi.
  - exists []. rewrite app_nil_r. cbn. destruct (loop_test st); repeat split; lia.
  - destruct (round_inv name _ _ _ _ Hi Ht Hr) as [Hi1 Hn1].
    destruct (IH Hi1) as [d2 [Ho2 [Hd2 [Hle2 Hs2]]]].
    destruct (round_result_holds name st w) as [d1 [k [Hres [Ho [_ _]]]]].
    rewrite Hr in Hres, Ho. cbn [fst snd] in *.
    destruct (round_result_counts _ _ _ _ _ _ Hres)
      as [Hk [E | [E | [o [E [Hd1 Hs1]]]]]]; try discriminate.
    injection E as ->.
    assert (Hround : rounds d1 = 1).
    { inversion Hres; subst; rewrite Hk; reflexivity. }
    pose proof (score_counters o st (match_inv_int st Hi) Ht) as Hsc.
    assert (Hsame : ongoing (score o st) = loop_test (score o st)).
    { destruct Hi1 as [_ [Hp [Hc _]]].
      destruct (ongoing (score o st)) eqn:Hgo, (loop_test (score o st)) eqn:Hlt;
        try reflexivity; exfalso.
      - apply ongoing_true in Hgo. apply loop_test_false in Hlt. lia.
      - apply loop_test_true in Hlt.
        unfold ongoing in Hgo. apply andb_false_iff in Hgo.
        rewrite !negb_false_iff, !Z.eqb_eq in Hgo. lia. }
    assert (Hlast : loop_test (score o st) = false -> loop_test st2 = false).
    { intros Hf. destruct (reaches_stuck _ _ _ _ Hf Hre) as [-> _]. exact Hf. }
    exists (d1 ++ d2). split; [rewrite Ho2, Ho, app_assoc; reflexivity | ].
    rewrite decisive_app, rounds_app, scoreboards_app, length_app, Hd1, Hd2,
      Hround, Hs2, Hs1, Hsame, Ht.
    destruct (loop_test (score o st)) eqn:Hlt1;
      [ | rewrite (Hlast eq_refl) ];
      destruct (loop_test st2);
      destruct o; destruct Hsc as [Hp Hc]; cbn [List.length];
      repeat split; lia.
Qed.

End MatchAccounts.

(** ** The match, counted *)

(** X10. However the loop comes out, it has drawn exactly one random
    number for every round played (every triptych printed); a read that
    gives up draws none. *)
Theorem one_draw_per_round
  (fuel : nat) (name : list ascii) (st : locals) (w : world) :
  exists d,
    w_out (snd (game_loop fuel name st w)) = w_out w ++ d /\
    Z.of_nat (w_calls (snd (game_loop fuel name st w)))
    = Z.of_nat (w_calls w) + rounds d.
Proof.
  destruct (game_loop_draws name fuel st w) as [d [Ho [Hc _]]].
  exists d. split; assumption.
Qed.

(** X11. When a match with [n0 >= 1] wins needed ends, the rounds with a
    winner in its trace are the wins the two counters show; there are at
    least [n0] and at most [2 * n0 - 1] of them, and all further rounds
    were ties. *)
Theorem finished_match_rounds
  (fuel : nat) (name : list ascii) (n0 : Z) (w w' : world) (st' : locals) :
  1 <= n0 ->
  CInt.in_range n0 ->
  game_loop fuel name (start n0) w = (Ret st', w') ->
  exists d,
    w_out w' = w_out w ++ d /\
    decisive d = playerWins st' + computerWins st' /\
    n0 <= decisive d <= 2 * n0 - 1 /\
    decisive d <= rounds d.
Proof.
  intros Hn Hr H.
  destruct (game_loop_reaches name _ _ _ _ _ H) as [Hre Hf].
  pose proof (start_inv n0 Hn Hr) as Hi.
  destruct (reaches_inv name _ _ _ _ Hre Hi) as [Hi' Hn'].
  destruct (reaches_accounts name _ _ _ _ Hre Hi) as [d [Ho [Hd [Hle _]]]].
  exists d. split; [exact Ho | ].
  cbn [start playerWins computerWins n] in Hd, Hn'.
  apply loop_test_false in Hf. unfold match_inv in Hi'. rewrite Hn' in *.
  destruct Hi' as [_ [Hp [Hc Hboth]]].
  repeat split; lia.
Qed.

Lemma finished_match_rounds_witness :
  exists d,
    w_out (snd (game_loop 4 (text "Bob") (start 2)
                  (sample_world 3 [2%N; 0%N; 2%N]
                                ["stone"; "stone"; "stone"]%string)))
    = w_out (sample_world 3 [2%N; 0%N; 2%N]
                          ["stone"; "stone"; "stone"]%string) ++ d /\
    decisive d =
      playerWins (score PlayerWin (score PlayerWin (start 2))) +
      computerWins (score PlayerWin (score PlayerWin (start 2))) /\
    2 <= decisive d <= 2 * 2 - 1 /\
    decisive d <= rounds d.
Proof.
  apply (finished_match_rounds
           4 (text "Bob") 2
           (sample_world 3 [2%N; 0%N; 2%N] ["stone"; "stone"; "stone"]%string)
           (snd (game_loop 4 (text "Bob") (start 2)
                   (sample_world 3 [2%N; 0%N; 2%N]
                                 ["stone"; "stone"; "stone"]%string)))
           (score PlayerWin (score PlayerWin (start 2)))).
  - lia.
  - unfold CInt.in_range, CInt.INT_MIN, CInt.INT_MAX. lia.
  - vm_compute. reflexivity.
Defined.

(** X12. When a match with [n0 >= 1] wins needed ends, every round but
    the last has printed its scoreboard line: the trace holds one
    scoreboard line less than it holds triptychs. *)
Theorem finished_match_scoreboards
  (fuel : nat) (name : list ascii) (n0 : Z) (w w' : world) (st' : locals) :
  1 <= n0 ->
  CInt.in_range n0 ->
  game_loop fuel name (start n0) w = (Ret st', w') ->
  exists d,
    w_out w' = w_out w ++ d /\
    rounds d = Z.of_nat (List.length (scoreboards d)) + 1.
Proof.
  intros Hn Hr H.
  destruct (game_loop_reaches name _ _ _ _ _ H) as [Hre Hf].
  pose proof (start_inv n0 Hn Hr) as Hi.
  destruct (reaches_accounts name _ _ _ _ Hre Hi) as [d [Ho [_ [_ Hs]]]].
  exists d. split; [exact Ho | ].
  rewrite Hf in Hs.
  assert (Ht : loop_test (start n0) = true)
    by (apply loop_test_true; cbn; lia).
  rewrite Ht in Hs. exact Hs.
Qed.

Lemma finished_match_scoreboards_witness :
  exists d,
    w_out (snd (game_loop 4 (text "Bob") (start 2)
                  (sample_world 3 [2%N; 0%N; 2%N]
                                ["stone"; "stone"; "stone"]%string)))
    = w_out (sample_world 3 [2%N; 0%N; 2%N]
                          ["stone"; "stone"; "stone"]%string) ++ d /\
    rounds d = Z.of_nat (List.length (scoreboards d)) + 1.
Proof.
  apply (finished_match_scoreboards
           4 (text "Bob") 2
           (sample_world 3 [2%N; 0%N; 2%N] ["stone"; "stone"; "stone"]%string)
           (snd (game_loop 4 (text "Bob") (start 2)
                   (sample_world 3 [2%N; 0%N; 2%N]
                                 ["stone"; "stone"; "stone"]%string)))
           (score PlayerWin (score PlayerWin (start 2)))).
  - lia.
  - unfold CInt.in_range, CInt.INT_MIN, CInt.INT_MAX. lia.
  - vm_compute. reflexivity.
Defined.

(** ** The banner *)



(** ** [main] as a whole *)

Lemma read_player_name_keeps_env : keeps_env read_player_name.
Proof. unfold read_player_name. repeat keeps_env_step. Qed.

(** X14. Whatever the input and the environment, if [main] ends the
    process, it ends it with status 0 or 1: 0 by returning behind the
    loop, 1 everywhere else.  The process is replaced by figlet only in
    the child of fork(), when execvp succeeds. *)
Theorem main_exit_status_0_or_1 (fuel : nat) (w : world) :
  match fst (main fuel w) with
  | Ret c => c = 0
  | Exit c => c = 1
  | Replaced => fork_ret (w_env w) = 0 /\ exec_ok (w_env w) = true
  | Spin => True
  end.
Proof.
  destruct (main_validates fuel w)
    as [name [w1 [r [v [inp [E1 [E2 [Hbad [Hrej Hok]]]]]]]]].
  cbv zeta in *.
  pose proof (read_player_name_keeps_env w) as He. rewrite E1 in He.
  cbn [snd] in He.
  destruct (Z.eq_dec r 1) as [Hr | Hr].
  - destruct (rejected v) eqn:Hv.
    + rewrite (Hrej Hr eq_refl). reflexivity.
    + rewrite (Hok Hr eq_refl). unfold bind.
      set (w2 := set_in (skip_line inp) (add_out [Out nl; Out "Best of: "] w1)).
      pose proof (game_loop_outcome name fuel (start (wins_needed v)) w2) as Hl.
      assert (Hw2 : w_env w2 = w_env w) by (cbn [w2 w_env set_in add_out]; exact He).
      rewrite Hw2 in Hl.
      destruct (game_loop fuel name (start (wins_needed v)) w2)
        as [[st' | c | | ] w']; cbn [fst ret] in *; auto.
  - rewrite (Hbad Hr). reflexivity.
Qed.

(** X15. The count is asked for once, behind the name.  When scanf does
    not return 1, [main] prints "Invalid input..." and ends with status
    1; when the number stored is not positive or not odd, it prints "Only
    positive odd integers are valid..." and ends with status 1; in both
    cases no round is played and no random number drawn.  Positive odd
    numbers, and only those, reach the match loop. *)
Theorem best_of_is_validated (fuel : nat) (w : world) :
  exists name w1 r v inp,
    read_player_name w = (Ret name, w1) /\
    scanf_i (w_env w1) (w_in w1) = (r, v, inp) /\
    let asked := w_out w1 ++ [Out nl; Out "Best of: "] in
    (r <> 1 ->
       fst (main fuel w) = Exit 1 /\
       w_out (snd (main fuel w)) = asked ++ [Out ("Invalid input..." ++ nl ++ nl)] /\
       w_calls (snd (main fuel w)) = w_calls w1) /\
    (r = 1 -> ~ (0 < v /\ Z.odd v = true) ->
       fst (main fuel w) = Exit 1 /\
       w_out (snd (main fuel w)) =
         asked ++
         [Out nl; Out ("Only positive odd integers are valid..." ++ nl ++ nl)] /\
       w_calls (snd (main fuel w)) = w_calls w1) /\
    (r = 1 -> 0 < v /\ Z.odd v = true ->
       main fuel w =
       (game_loop fuel name (start (wins_needed v)) ;; ret 0)
         (set_in (skip_line inp) (add_out [Out nl; Out "Best of: "] w1))).
Proof.
  destruct (main_validates fuel w)
    as [name [w1 [r [v [inp [E1 [E2 [Hbad [Hrej Hok]]]]]]]]].
  exists name, w1, r, v, inp. split; [exact E1 | ]. split; [exact E2 | ].
  cbv zeta in *. split; [ | split ].
  - intros Hr. rewrite (Hbad Hr). cbn [fst snd w_out w_calls add_out set_in].
    rewrite <- !app_assoc. repeat split; reflexivity.
  - intros Hr Hv.
    assert (rejected v = true) as Hrj.
    { destruct (rejected v) eqn:E; [reflexivity | ].
      apply accepted_odd in E. contradiction. }
    rewrite (Hrej Hr Hrj). cbn [fst snd w_out w_calls add_out set_in].
    rewrite <- !app_assoc. repeat split; reflexivity.
  - intros Hr Hv. apply accepted_odd in Hv. exact (Hok Hr Hv).
Qed.

(** ** Ties *)





(** * The end of the match *)

(** ** When the loop ends *)

(** While its test holds, the loop does not return where it stands: it
    makes another pass through its body. *)
Lemma game_loop_goes_on (fuel : nat) (name : list ascii) (st : locals) (w : world) :
  loop_test st = true ->
  game_loop 0 name st w = (Spin, w) /\
  game_loop (S fuel) name st w = bind (round name st) (game_loop fuel name) w.
Proof.
  intros H. cbn [game_loop].
  change ((playerWins st <? n st) && (computerWins st <? n st))%bool
    with (loop_test st).
  rewrite H. split; reflexivity.
Qed.

(** C3. In a match with [n0 >= 1] wins needed, at every loop head the run
    comes to: the two counters never both equal [n0]; if one of them equals
    [n0] the loop returns there, whatever the fuel, and with enough fuel the
    loop started at the beginning of the match returns exactly that state;
    if neither equals [n0] the loop does not return there but makes another
    pass through its body.  Conversely, whenever the loop returns, it has
    come to its final state by complete rounds and exactly one counter
    equals [n0]. *)
Theorem match_ends_with_one_winner
  (name : list ascii) (n0 : Z) (w : world) :
  1 <= n0 ->
  CInt.in_range n0 ->
  (forall st w',
     reaches name (start n0) w st w' ->
     n st = n0 /\
     (loop_test st = false <-> playerWins st = n0 \/ computerWins st = n0) /\
     ~ (playerWins st = n0 /\ computerWins st = n0) /\
     (playerWins st = n0 \/ computerWins st = n0 ->
      (forall fuel, game_loop fuel name st w' = (Ret st, w')) /\
      (exists fuel, forall more,
         game_loop (fuel + more) name (start n0) w = (Ret st, w'))) /\
     (playerWins st <> n0 /\ computerWins st <> n0 ->
      game_loop 0 name st w' = (Spin, w') /\
      forall fuel,
        game_loop (S fuel) name st w' =
        bind (round name st) (game_loop fuel name) w')) /\
  (forall fuel st' w',
     game_loop fuel name (start n0) w = (Ret st', w') ->
     reaches name (start n0) w st' w' /\
     (playerWins st' = n0 \/ computerWins st' = n0) /\
     ~ (playerWins st' = n0 /\ computerWins st' = n0)).
Proof.
  intros Hn Hr.
  assert (Hreach : forall st w',
     reaches name (start n0) w st w' ->
     n st = n0 /\
     (loop_test st = false <-> playerWins st = n0 \/ computerWins st = n0) /\
     ~ (playerWins st = n0 /\ computerWins st = n0)).
  { intros st w' H.
    destruct (reaches_inv _ _ _ _ _ H (start_inv n0 Hn Hr)) as [Hi Hn0].
    cbn in Hn0. unfold match_inv in Hi. rewrite Hn0 in Hi.
    destruct Hi as [_ [Hp [Hc Hboth]]].
    split; [assumption | ]. split; [ | assumption ].
    rewrite loop_test_false, Hn0. lia. }
  split.
  - intros st w' H.
    destruct (Hreach _ _ H) as [Hn0 [Hiff Hboth]].
    split; [exact Hn0 | ]. split; [exact Hiff | ]. split; [exact Hboth | ].
    split.
    + intros Hone.
      assert (Hf : loop_test st = false) by (apply Hiff; exact Hone).
      split.
      * intros fuel. apply game_loop_done. exact Hf.
      * exact (reaches_game_loop name _ _ _ _ H Hf).
    + intros [Hp Hc].
      assert (Ht : loop_test st = true).
      { destruct (loop_test st) eqn:E; [reflexivity | ].
        destruct Hiff as [Hone _]. specialize (Hone eq_refl). lia. }
      split.
      * apply (game_loop_goes_on 0 name st w' Ht).
      * intros fuel. apply (game_loop_goes_on fuel name st w' Ht).
  - intros fuel st' w' H.
    destruct (game_loop_reaches _ _ _ _ _ _ H) as [Hre Hf].
    destruct (Hreach _ _ Hre) as [_ [Hiff Hboth]].
    split; [assumption | ]. split; [apply Hiff; assumption | assumption].
Qed.

(** Bob plays stone three times against scissors, stone and scissors in a
    match to two wins: the run comes to the state with two wins to none,
    and there the loop returns. *)
Lemma match_ends_with_one_winner_witness :
  exists st' w',
    reaches (text "Bob") (start 2)
            (sample_world 3 [2%N; 0%N; 2%N] ["stone"; "stone"; "stone"]%string)
            st' w' /\
    playerWins st' = 2 /\ computerWins st' = 0 /\
    (forall fuel, game_loop fuel (text "Bob") st' w' = (Ret st', w')) /\
    (exists fuel, forall more,
       game_loop (fuel + more) (text "Bob") (start 2)
                 (sample_world 3 [2%N; 0%N; 2%N]
                               ["stone"; "stone"; "stone"]%string)
       = (Ret st', w')).
Proof.
  destruct (match_ends_with_one_winner
              (text "Bob") 2
              (sample_world 3 [2%N; 0%N; 2%N] ["stone"; "stone"; "stone"]%string))
    as [Hreach _].
  - lia.
  - unfold CInt.in_range, CInt.INT_MIN, CInt.INT_MAX. lia.
  - eexists. eexists.
    match goal with |- ?R /\ _ => assert (HR : R) end.
    { eapply reaches_round; [reflexivity | vm_compute; reflexivity | ].
      eapply reaches_round; [reflexivity | vm_compute; reflexivity | ].
      eapply reaches_round; [reflexivity | vm_compute; reflexivity | ].
      apply reaches_here. }
    destruct (Hreach _ _ HR) as [_ [_ [_ [Hend _]]]].
    split; [exact HR | ].
    split; [reflexivity | ].
    split; [reflexivity | ].
    apply Hend. left. reflexivity.
Defined.

(** ** What the round that ends the match prints *)

(** The ways [announce] can come out, with all that it prints and what
    in the environment makes it come out so. *)
Lemma announce_shape (name : list ascii) (st : locals) (w : world) :
  match fst (announce name st w) with
  | Ret _ =>
      w_out (snd (announce name st w)) = w_out w ++ dots /\
      fork_ret (w_env w) <> 0 /\ banner_ok (w_env w)
  | Exit c =>
      c = 1 /\
      (fork_ret (w_env w) = 0 /\ exec_ok (w_env w) = false \/
       fork_ret (w_env w) <> 0 /\ ~ banner_ok (w_env w)) /\
      exists report,
        on_stderr report /\
        w_out (snd (announce name st w)) = w_out w ++ dots ++ [report]
  | Replaced =>
      (fork_ret (w_env w) = 0 /\ exec_ok (w_env w) = true) /\
      w_out (snd (announce name st w)) =
      w_out w ++ dots ++ [win_message name st]
  | Spin => False
  end.
Proof.
  destruct (Z.eq_dec (fork_ret (w_env w)) 0) as [Hchild | Hparent].
  - destruct (announce_result_holds name st w) as [d [Ha [Ho _]]].
    destruct (announce name st w) as [res w'] eqn:Ea. cbn [fst snd] in *.
    inversion Ha; subst; try contradiction.
    + split; [reflexivity | ]. split; [left; split; assumption | ].
      exists (Err "Figlet execution failed"). split; [exact I | exact Ho].
    + split; [split; assumption | exact Ho].
  - rewrite (announce_parent name st w Hparent).
    unfold banner_ok.
    destruct (Z.eqb_spec (fork_ret (w_env w)) (-1)) as [Hf | Hf].
    { cbn [fst snd]. split; [reflexivity | ].
      split; [right; split; [assumption | tauto] | ].
      exists (Err "Fork failed"). split; [exact I | reflexivity]. }
    destruct (wait_status (w_env w)) as [c | sig] eqn:Hs;
      cbn [WIFEXITED WEXITSTATUS].
    + destruct (Z.eqb_spec c 0) as [-> | Hc]; cbn [fst snd].
      * split; [reflexivity | ]. split; [assumption | ].
        split; [assumption | ]. split; [discriminate | reflexivity].
      * split; [reflexivity | ].
        split; [right; split; [assumption | tauto] | ].
        exists (ErrStatus c). split; [exact I | reflexivity].
    + cbn [fst snd]. split; [reflexivity | ].
      split; [right; split; [assumption | tauto] | ].
      exists (Err "Child process terminated abnormally").
      split; [exact I | reflexivity].
Qed.

(** All that a pass through the loop body prints: what the reader of the
    choice prints, then the triptych, then the scoreboard line between two
    line feeds if the match goes on, and the announcement if it is over. *)
Lemma round_events (name : list ascii) (st : locals) (w : world) :
  exists d0 : list event,
    Forall plain d0 /\
    w_out (snd (getPlayerChoice w)) = w_out w ++ d0 /\
    match fst (round name st w) with
    | Ret st' =>
        exists a1 a3,
          if ongoing st'
          then w_out (snd (round name st w)) =
               w_out w ++ d0 ++
               [ArtPrint a1 vs a3 ART_HEIGHT;
                Out nl;
                Score (cstring name) (playerWins st') (computerWins st');
                Out nl]
          else w_out (snd (round name st w)) =
               w_out w ++ d0 ++ [ArtPrint a1 vs a3 ART_HEIGHT] ++ dots /\
               fork_ret (w_env w) <> 0 /\ banner_ok (w_env w)
    | Exit c =>
        c = 1 /\
        (w_out (snd (round name st w)) = w_out w ++ d0 \/
         (fork_ret (w_env w) = 0 /\ exec_ok (w_env w) = false \/
          fork_ret (w_env w) <> 0 /\ ~ banner_ok (w_env w)) /\
         exists a1 a3 report,
           on_stderr report /\
           w_out (snd (round name st w)) =
           w_out w ++ d0 ++ [ArtPrint a1 vs a3 ART_HEIGHT] ++ dots ++ [report])
    | Replaced =>
        (fork_ret (w_env w) = 0 /\ exec_ok (w_env w) = true) /\
        exists a1 a3 o,
          ongoing (score o st) = false /\
          w_out (snd (round name st w)) =
          w_out w ++ d0 ++ [ArtPrint a1 vs a3 ART_HEIGHT] ++ dots ++
          [win_message name (score o st)]
    | Spin => False
    end.
Proof.
  pose proof (getPlayerChoice_emits w) as [d0 [Hd0 Hp0]].
  pose proof (getPlayerChoice_keeps_env w) as He0.
  exists d0. split; [exact Hp0 | ]. split; [exact Hd0 | ].
  pose proof (round_shape_holds name st w) as Hs.
  destruct (round name st w) as [res w'] eqn:Er.
  inversion Hs as [w1 Eg Eo
                  | pc cc w1 w2 w'' Eg Ecc Hgo Hout Eo
                  | pc cc w1 w2 w3 w'' o Eg Ecc Hgo Hout3 Henv3 Ea Eo];
    subst; cbn [fst snd]; rewrite Eg in Hd0, He0; cbn [snd] in Hd0, He0.
  - split; [reflexivity | ]. left. exact Hd0.
  - destruct (randomNumber_1_3 w1) as [cc' [w2' [Ecc' [_ [Hout2 _]]]]].
    rewrite Ecc in Ecc'. injection Ecc' as <- <-.
    exists (art_of pc), (art_of cc). rewrite Hgo, Hout, Hout2, Hd0.
    rewrite <- !app_assoc. reflexivity.
  - destruct (randomNumber_1_3 w1) as [cc' [w2' [Ecc' [_ [Hout2 [Henv2 _]]]]]].
    rewrite Ecc in Ecc'. injection Ecc' as <- <-.
    pose proof (announce_shape name (score (resolve pc cc) st) w3) as Hsh.
    rewrite Ea in Hsh. cbn [fst snd] in Hsh.
    assert (Henv : w_env w3 = w_env w) by congruence.
    rewrite Henv in Hsh.
    assert (Hout : w_out w3 =
                   w_out w ++ d0 ++ [ArtPrint (art_of pc) vs (art_of cc) ART_HEIGHT]).
    { rewrite Hout3, Hout2, Hd0, <- app_assoc. reflexivity. }
    destruct o as [[] | c | | ]; cbn [and_then].
    + destruct Hsh as [Ho Hok].
      exists (art_of pc), (art_of cc). rewrite Hgo.
      split; [ | exact Hok ].
      rewrite Ho, Hout. rewrite <- !app_assoc. reflexivity.
    + destruct Hsh as [-> [Hwhy [report [Hrep Ho]]]].
      split; [reflexivity | ]. right. split; [exact Hwhy | ].
      exists (art_of pc), (art_of cc), report. split; [exact Hrep | ].
      rewrite Ho, Hout. rewrite <- !app_assoc. reflexivity.
    + destruct Hsh as [Hwhy Ho]. split; [exact Hwhy | ].
      exists (art_of pc), (art_of cc), (resolve pc cc). split; [exact Hgo | ].
      rewrite Ho, Hout. rewrite <- !app_assoc. reflexivity.
    + contradiction.
Qed.

(** Once a pass through the body has left a counter equal to [n], the loop
    returns where it stands. *)
Lemma game_loop_over (fuel : nat) (name : list ascii) (st : locals) (w : world) :
  ongoing st = false -> game_loop fuel name st w = (Ret st, w).
Proof.
  intros Hgo. apply game_loop_done.
  apply match_over_tests.
  unfold ongoing in Hgo. apply andb_false_iff in Hgo.
  rewrite !negb_false_iff, !Z.eqb_eq in Hgo. exact Hgo.
Qed.

(** In a match, the loop is over as soon as its test fails. *)
Lemma match_inv_over (st : locals) :
  match_inv st -> loop_test st = false -> ongoing st = false.
Proof.
  intros [_ [Hp [Hc _]]] Hf.
  apply match_over_tests. apply loop_test_false in Hf. lia.
Qed.

(** A run of the match that comes to its end has the triptych of its last
    round and the five prints that precede the banner as the last things
    printed. *)
Lemma reaches_ends_with_announcement
  (name : list ascii) (st st' : locals) (w w' : world) :
  reaches name st w st' w' ->
  match_inv st ->
  loop_test st = true ->
  loop_test st' = false ->
  exists d a1 a3,
    w_out w' = w_out w ++ d ++ [ArtPrint a1 vs a3 ART_HEIGHT] ++ dots.
Proof.
  induction 1 as [st w | st st1 st2 w w1 w2 Ht Hr Hre IH]; intros Hi Ht0 Hf.
  - congruence.
  - destruct (round_inv name _ _ _ _ Hi Ht Hr) as [Hi1 _].
    destruct (round_scoreboards name st w) as [d1 [Hout1 _]].
    rewrite Hr in Hout1. cbn [snd] in Hout1.
    destruct (loop_test st1) eqn:Ht1.
    + destruct (IH Hi1 eq_refl Hf) as [d [b1 [b3 Hout2]]].
      exists (d1 ++ d), b1, b3.
      rewrite Hout2, Hout1, <- !app_assoc. reflexivity.
    + destruct (round_events name st w) as [d0 [_ [_ Hev]]].
      rewrite Hr in Hev. cbn [fst snd] in Hev.
      destruct Hev as [a1 [a3 Hout]].
      rewrite (match_inv_over st1 Hi1 Ht1) in Hout. destruct Hout as [Hout _].
      inversion Hre; subst; [ | congruence ].
      exists d0, a1, a3. exact Hout.
Qed.

(** C8. A pass through the loop body that leaves neither counter equal to
    [n] prints exactly one scoreboard line, with the player's name and the
    two counters: behind the triptych, between two line feeds, as the last
    things of the pass.  A pass that leaves a counter equal to [n], or that
    ends the process, prints no scoreboard line, and over the whole loop no
    scoreboard line shows a counter equal to [n].  The pass that leaves a
    counter equal to [n] prints, behind the triptych, the announcement and
    nothing else: the five prints that precede the banner, and then
    - nothing more when the pass returns, which it does only in the process
      that forked and found that its child ended by itself with status 0;
    - one report on the standard error stream when the process ends, with
      status 1, because the banner failed (in the child when figlet could
      not be started, in the parent otherwise);
    - the start of figlet on the win message in the child.
    After that pass the loop returns where it stands, whatever the fuel, so
    that a match that comes to its end has that triptych and those five
    prints as the last things printed. *)
Theorem scoreboard_only_while_ongoing
  (name : list ascii) (st : locals) (w : world) :
  (exists d,
     w_out (snd (round name st w)) = w_out w ++ d /\
     match fst (round name st w) with
     | Ret st' =>
         scoreboards d =
         (if (negb (playerWins st' =? n st') &&
              negb (computerWins st' =? n st'))%bool
          then [Score (cstring name) (playerWins st') (computerWins st')]
          else [])
     | _ => scoreboards d = []
     end) /\
  (forall fuel,
   exists d,
     w_out (snd (game_loop fuel name st w)) = w_out w ++ d /\
     forall nm p c,
       In (Score nm p c) d -> nm = cstring name /\ p <> n st /\ c <> n st) /\
  (exists d0 : list event,
     Forall plain d0 /\
     w_out (snd (getPlayerChoice w)) = w_out w ++ d0 /\
     match fst (round name st w) with
     | Ret st' =>
         exists a1 a3,
           if ongoing st'
           then w_out (snd (round name st w)) =
                w_out w ++ d0 ++
                [ArtPrint a1 vs a3 ART_HEIGHT;
                 Out nl;
                 Score (cstring name) (playerWins st') (computerWins st');
                 Out nl]
           else w_out (snd (round name st w)) =
                w_out w ++ d0 ++ [ArtPrint a1 vs a3 ART_HEIGHT] ++ dots /\
                fork_ret (w_env w) <> 0 /\ banner_ok (w_env w)
     | Exit c =>
         c = 1 /\
         (w_out (snd (round name st w)) = w_out w ++ d0 \/
          (fork_ret (w_env w) = 0 /\ exec_ok (w_env w) = false \/
           fork_ret (w_env w) <> 0 /\ ~ banner_ok (w_env w)) /\
          exists a1 a3 report,
            on_stderr report /\
            w_out (snd (round name st w)) =
            w_out w ++ d0 ++ [ArtPrint a1 vs a3 ART_HEIGHT] ++ dots ++ [report])
     | Replaced =>
         (fork_ret (w_env w) = 0 /\ exec_ok (w_env w) = true) /\
         exists a1 a3 o,
           ongoing (score o st) = false /\
           w_out (snd (round name st w)) =
           w_out w ++ d0 ++ [ArtPrint a1 vs a3 ART_HEIGHT] ++ dots ++
           [win_message name (score o st)]
     | Spin => False
     end) /\
  (forall st' w',
     round name st w = (Ret st', w') ->
     ongoing st' = false ->
     forall fuel, game_loop fuel name st' w' = (Ret st', w')) /\
  (match_inv st ->
   loop_test st = true ->
   forall fuel st' w',
     game_loop fuel name st w = (Ret st', w') ->
     exists d a1 a3,
       w_out w' = w_out w ++ d ++ [ArtPrint a1 vs a3 ART_HEIGHT] ++ dots).
Proof.
  split; [exact (round_scoreboards name st w) | ].
  split; [intros fuel; apply game_loop_scoreboards | ].
  split; [exact (round_events name st w) | ].
  split.
  - intros st' w' _ Hgo fuel. apply game_loop_over. exact Hgo.
  - intros Hi Ht fuel st' w' H.
    destruct (game_loop_reaches name _ _ _ _ _ H) as [Hre Hf].
    exact (reaches_ends_with_announcement name _ _ _ _ Hre Hi Ht Hf).
Qed.

(** Bob plays stone against scissors in a match to one win: the loop
    returns after that one round, and the triptych and the five prints
    that precede the banner are the last things printed. *)
Lemma scoreboard_only_while_ongoing_witness :
  exists st' w',
    game_loop 1 (text "Bob") (start 1)
              (sample_world 1 [2%N] ["stone"%string]) = (Ret st', w') /\
    scoreboards (w_out w') = [] /\
    (forall fuel, game_loop fuel (text "Bob") st' w' = (Ret st', w')) /\
    exists d a1 a3,
      w_out w' =
      w_out (sample_world 1 [2%N] ["stone"%string]) ++
      d ++ [ArtPrint a1 vs a3 ART_HEIGHT] ++ dots.
Proof.
  destruct (scoreboard_only_while_ongoing
              (text "Bob") (start 1) (sample_world 1 [2%N] ["stone"%string]))
    as [_ [_ [_ [Hover Hend]]]].
  eexists. eexists.
  match goal with |- ?E /\ _ => assert (HE : E) by (vm_compute; reflexivity) end.
  split; [exact HE | ].
  split; [reflexivity | ].
  split.
  - apply (Hover _ _ ltac:(vm_compute; reflexivity) eq_refl).
  - apply (Hend (start_inv 1 ltac:(lia)
                   ltac:(unfold CInt.in_range, CInt.INT_MIN, CInt.INT_MAX; lia))
                eq_refl 1%nat _ _ HE).
Defined.
